(** * Barbearia API: a shallow embedding of the Express/SQLite backend

    The development follows the three source files of the API:
    - [db.js]: the store handle, the schema and [seedIfEmpty];
    - [auth.js]: [signToken], [authMiddleware], [ensureAdmin],
      [ensureAdminUser], [verifyPassword];
    - [server.js]: the route handlers and the [/admin] gate.

    Third-party packages (zod's format checks, jsonwebtoken, bcryptjs and
    SQLite's text-to-number coercion) are an interface, [Platform]; the
    zod combinators the schemas are written with, [flatten] and the SQL
    statements are modelled explicitly. *)

From Stdlib Require Import ZArith QArith Qround String Ascii List Lia.
From stdpp Require Import base option list strings gmap sorting.

Local Open Scope string_scope.
Local Open Scope list_scope.
Local Open Scope Z_scope.

(** ** JavaScript values *)

(** A JS number as [JSON.parse] yields it: a finite value or an infinity
    (from an overflowing literal such as [1e999]). *)
Inductive jsnum :=
| Fin (q : Q)
| Inf (negative : bool).

#[warnings="-register-all"]
Inductive jvalue :=
| JNull
| JBool (b : bool)
| JNum (n : jsnum)
| JStr (s : string)
| JArr (l : list jvalue)
| JObj (kv : list (string * jvalue)).

Definition jobject := list (string * jvalue).

(** An integer-valued number, as a row id or a counter is serialized. *)
Definition JInt (z : Z) : jvalue := JNum (Fin (inject_Z z)).

(** SQL NULL and absent optional text both serialize as [null]. *)
Definition JText (o : option string) : jvalue :=
  match o with
  | Some s => JStr s
  | None => JNull
  end.

(** Property read [o[k]]; [None] is [undefined]. *)
Fixpoint obj_get (k : string) (o : jobject) : option jvalue :=
  match o with
  | [] => None
  | (k', v) :: o' => if String.eqb k k' then Some v else obj_get k o'
  end.

Definition keys (o : jobject) : list string := map fst o.

(** [Number.isInteger]. *)
Definition is_integer (n : jsnum) : bool :=
  match n with
  | Fin q => Qeq_bool (inject_Z (Qfloor q)) q
  | Inf _ => false
  end.

Definition num_ge (n : jsnum) (k : Z) : bool :=
  match n with
  | Fin q => Qle_bool (inject_Z k) q
  | Inf negative => negb negative
  end.

Definition num_le (n : jsnum) (k : Z) : bool :=
  match n with
  | Fin q => Qle_bool q (inject_Z k)
  | Inf negative => negative
  end.

Definition int_of (n : jsnum) : Z :=
  match n with
  | Fin q => Qfloor q
  | Inf _ => 0
  end.

(** Text is kept as its UTF-8 bytes (what SQLite stores and what arrives on
    the wire); [String.prototype.length] counts UTF-16 code units: one per
    code point, two for a code point outside the basic plane. *)
Definition utf16_units (c : ascii) : nat :=
  let n := nat_of_ascii c in
  if (n <? 128)%nat then 1%nat
  else if (n <? 192)%nat then 0%nat
  else if (n <? 240)%nat then 1%nat
  else 2%nat.

Fixpoint js_length (s : string) : nat :=
  match s with
  | EmptyString => 0%nat
  | String c s' => (utf16_units c + js_length s')%nat
  end.

(** [s.slice(n)] for a prefix of [n] ASCII characters. *)
Fixpoint slice (n : nat) (s : string) : string :=
  match n, s with
  | O, _ => s
  | S n', String _ s' => slice n' s'
  | S _, EmptyString => EmptyString
  end.

Definition startsWith (s p : string) : bool := String.prefix p s.

(** [x || null] on an optional string: [undefined] and [''] are falsy. *)
Definition or_null (x : option string) : option string :=
  match x with
  | Some "" => None
  | Some s => Some s
  | None => None
  end.

(** [x ?? d]. *)
Definition nullish {A} (x : option A) (d : A) : A :=
  match x with
  | Some a => a
  | None => d
  end.

(** [c ? 1 : 0]. *)
Definition flag (c : bool) : Z := if c then 1 else 0.

(** ** Third-party packages *)

Class Platform := {
  (** the pattern behind [z.string().email()] *)
  zod_email : string → bool;
  (** [z.string().url()]: whether [new URL(s)] succeeds *)
  zod_url : string → bool;
  (** [jwt.sign(payload, secret, { expiresIn: '12h' })] at a given clock *)
  jwt_sign : string → jvalue → Z → string;
  (** [jwt.verify(token, secret)]; [None] when it throws *)
  jwt_verify : option string → string → Z → option jvalue;
  (** [bcrypt.hashSync(pwd, 10)], the salt drawn from the given entropy *)
  bcrypt_hashSync : string → Z → string;
  (** [bcrypt.compareSync(plain, hash)] *)
  bcrypt_compareSync : string → string → bool;
  (** SQLite's numeric coercion of a TEXT operand compared with an INTEGER
      column; [None] when the text does not denote an integer *)
  sqlite_numeric : string → option Z;
}.

(** ** zod *)

Module Zod.

(** An issue's message is determined by its code; the wording differs
    between zod releases, so the code stands for the message. *)
Inductive zcode :=
| invalid_type
| not_integer
| too_small
| too_big
| invalid_email
| invalid_url
| invalid_enum_value.

(** [path = None] is an issue on the body as a whole. *)
Record zissue := Issue { path : option string; code : zcode }.

Inductive strcheck :=
| Min (n : nat)
| Email
| Url.

Inductive numcheck :=
| NMin (k : Z)
| NMax (k : Z).

(** The schema constructors the routes use. [ZInt cs] is
    [z.number().int()] followed by the bound checks [cs]. *)
Inductive ztype : Type → Type :=
| ZString (cs : list strcheck) : ztype string
| ZInt (cs : list numcheck) : ztype Z
| ZBoolean : ztype bool
| ZEnum (values : list string) : ztype string
| ZOptional {A} (t : ztype A) : ztype (option A)
| ZNullable {A} (t : ztype A) : ztype (option A).

(** An object schema: its fields in declaration order. *)
Inductive zshape : Type → Type :=
| SEnd : zshape unit
| SField {A B} (name : string) (t : ztype A) (rest : zshape B) : zshape (A * B).

Section parse.
Context `{Platform}.

Definition strcheck_issue (s : string) (c : strcheck) : list zcode :=
  match c with
  | Min n => if (js_length s <? n)%nat then [too_small] else []
  | Email => if zod_email s then [] else [invalid_email]
  | Url => if zod_url s then [] else [invalid_url]
  end.

Definition numcheck_issue (n : jsnum) (c : numcheck) : list zcode :=
  match c with
  | NMin k => if num_ge n k then [] else [too_small]
  | NMax k => if num_le n k then [] else [too_big]
  end.

(** Checks do not abort: every failing check adds its issue. *)
Definition string_issues (cs : list strcheck) (s : string) : list zcode :=
  concat (map (strcheck_issue s) cs).

Definition int_issues (cs : list numcheck) (n : jsnum) : list zcode :=
  (if is_integer n then [] else [not_integer])
    ++ concat (map (numcheck_issue n) cs).

(** [t._parse(v)]: the issues of the value, or the parsed output. *)
Fixpoint zparse {A} (t : ztype A) (v : option jvalue) : list zcode + A :=
  match t in ztype A return list zcode + A with
  | ZString cs =>
      match v with
      | Some (JStr s) =>
          match string_issues cs s with
          | [] => inr s
          | errs => inl errs
          end
      | _ => inl [invalid_type]
      end
  | ZInt cs =>
      match v with
      | Some (JNum n) =>
          match int_issues cs n with
          | [] => inr (int_of n)
          | errs => inl errs
          end
      | _ => inl [invalid_type]
      end
  | ZBoolean =>
      match v with
      | Some (JBool b) => inr b
      | _ => inl [invalid_type]
      end
  | ZEnum values =>
      match v with
      | Some (JStr s) =>
          if bool_decide (s ∈ values) then inr s else inl [invalid_enum_value]
      | _ => inl [invalid_type]
      end
  | ZOptional t' =>
      match v with
      | None => inr None
      | _ =>
          match zparse t' v with
          | inr a => inr (Some a)
          | inl errs => inl errs
          end
      end
  | ZNullable t' =>
      match v with
      | Some JNull => inr None
      | _ =>
          match zparse t' v with
          | inr a => inr (Some a)
          | inl errs => inl errs
          end
      end
  end.

Definition at_field (name : string) (cs : list zcode) : list zissue :=
  map (Issue (Some name)) cs.

(** Every field is parsed; the issues of all of them are collected. *)
Fixpoint parse_shape {A} (s : zshape A) (o : jobject) : list zissue + A :=
  match s in zshape A return list zissue + A with
  | SEnd => inr tt
  | SField name t rest =>
      match zparse t (obj_get name o), parse_shape rest o with
      | inr a, inr b => inr (a, b)
      | inl cs, inr _ => inl (at_field name cs)
      | inr _, inl errs => inl errs
      | inl cs, inl errs => inl (at_field name cs ++ errs)
      end
  end.

(** [z.object(shape).safeParse(body)]; keys outside the shape are
    dropped. *)
Definition safeParse {A} (s : zshape A) (body : option jvalue)
  : list zissue + A :=
  match body with
  | Some (JObj o) => parse_shape s o
  | _ => inl [Issue None invalid_type]
  end.

End parse.

Fixpoint field_names {A} (s : zshape A) : list string :=
  match s with
  | SEnd => []
  | SField name _ rest => name :: field_names rest
  end.

(** [error.flatten()]. *)
Record zflat := Flat {
  formErrors : list zcode;
  fieldErrors : gmap string (list zcode)
}.

Definition flatten_step (acc : zflat) (sub : zissue) : zflat :=
  match path sub with
  | Some f =>
      Flat (formErrors acc)
           (<[f := default [] (fieldErrors acc !! f) ++ [code sub]]>
              (fieldErrors acc))
  | None => Flat (formErrors acc ++ [code sub]) (fieldErrors acc)
  end.

Definition flatten (issues : list zissue) : zflat :=
  foldl flatten_step (Flat [] ∅) issues.

End Zod.


(** ** SQLite tables and statements *)

Module Sql.

(** A rowid table declared [INTEGER PRIMARY KEY AUTOINCREMENT]: its rows
    and its entry in [sqlite_sequence]. *)
Record table (R : Type) := Table { rows : list R; seq : Z }.
Arguments Table {R} _ _.
Arguments rows {R} _.
Arguments seq {R} _.

Class Row (R : Type) := rowid : R → Z.

Inductive order := Asc | Desc.

(** What [stmt.run] reports. The handlers read [lastInsertRowid] after an
    INSERT and [changes] after an UPDATE or DELETE; the other field is
    not tracked there and reads 0. *)
Record info := Info { changes : Z; lastInsertRowid : Z }.

Section statements.
Context `{Platform} {R : Type} `{Row R}.

Definition empty : table R := Table [] 0.

Definition max_rowid (t : table R) : Z := foldr Z.max 0 (rowid <$> rows t).

(** AUTOINCREMENT: one more than the largest rowid the table ever held. *)
Definition next_rowid (t : table R) : Z := Z.max (seq t) (max_rowid t) + 1.

(** [INSERT INTO t (...) VALUES (...)]: the id is not among the columns. *)
Definition insert (t : table R) (mk : Z → R) : table R * info :=
  let i := next_rowid t in
  (Table (rows t ++ [mk i]) i, Info 1 i).

(** [WHERE id = ?] with the parameter bound as TEXT. *)
Definition id_is (p : string) (r : R) : Prop := sqlite_numeric p = Some (rowid r).

#[export] Instance id_is_dec p r : Decision (id_is p r).
Proof. unfold id_is. apply _. Defined.

(** [UPDATE t SET ... WHERE id = ?]; [changes] counts the rows matched. *)
Definition update_by_id (t : table R) (p : string) (set : R → R)
  : table R * info :=
  (Table ((λ r, if decide (id_is p r) then set r else r) <$> rows t) (seq t),
   Info (Z.of_nat (length (filter (id_is p) (rows t)))) 0).

(** [DELETE FROM t WHERE id = ?]. *)
Definition delete_by_id (t : table R) (p : string) : table R * info :=
  (Table (filter (λ r, ¬ id_is p r) (rows t)) (seq t),
   Info (Z.of_nat (length (filter (id_is p) (rows t)))) 0).

Definition id_le (a b : R) : Prop := rowid a ≤ rowid b.
Definition id_ge (a b : R) : Prop := rowid b ≤ rowid a.

#[export] Instance id_le_dec a b : Decision (id_le a b).
Proof. unfold id_le. apply _. Defined.
#[export] Instance id_ge_dec a b : Decision (id_ge a b).
Proof. unfold id_ge. apply _. Defined.

Definition id_order (o : order) : relation R :=
  match o with
  | Asc => id_le
  | Desc => id_ge
  end.

(** [ORDER BY id] and [ORDER BY id DESC]. *)
Definition order_by_id (o : order) (l : list R) : list R :=
  match o with
  | Asc => merge_sort id_le l
  | Desc => merge_sort id_ge l
  end.

(** [SELECT cols FROM t WHERE cond ORDER BY id [DESC] [LIMIT n]], [.all()]. *)
Definition select_all (t : table R) (cond : R → Prop) `{∀ r, Decision (cond r)}
    (o : order) (limit : option nat) (cols : R → jvalue) : list jvalue :=
  let sorted := order_by_id o (filter cond (rows t)) in
  cols <$> match limit with
           | Some n => take n sorted
           | None => sorted
           end.

(** [SELECT ... WHERE cond], [.get()]: the first row, if any. *)
Definition select_get (t : table R) (cond : R → Prop) `{∀ r, Decision (cond r)}
  : option R :=
  head (filter cond (rows t)).

End statements.

End Sql.

Import Sql.

(** ** db.js: the schema *)

Module User.
Record t := Build {
  id : Z; email : string; password_hash : string; role : string;
  created_at : Z }.
End User.

Module Service.
Record t := Build {
  id : Z; title : string; description : option string; price_cents : Z;
  active : Z; created_at : Z }.
End Service.

Module Team.
Record t := Build {
  id : Z; name : string; role : option string; photo_url : option string;
  active : Z; created_at : Z }.
End Team.

Module Testimonial.
Record t := Build {
  id : Z; author : string; content : string; rating : Z;
  active : Z; created_at : Z }.
End Testimonial.

Module Gallery.
Record t := Build {
  id : Z; image_url : string; caption : option string;
  active : Z; created_at : Z }.
End Gallery.

Module Post.
Record t := Build {
  id : Z; title : string; excerpt : option string; content : option string;
  cover_url : option string; published : Z; created_at : Z }.
End Post.

Module Appointment.
Record t := Build {
  id : Z; name : string; phone : string; email : string;
  service : option string; datetime : option string; notes : option string;
  status : string; created_at : Z }.
End Appointment.

Module Contact.
Record t := Build {
  id : Z; name : string; email : string; message : string; created_at : Z }.
End Contact.

#[export] Instance user_row : Row User.t := User.id.
#[export] Instance service_row : Row Service.t := Service.id.
#[export] Instance team_row : Row Team.t := Team.id.
#[export] Instance testimonial_row : Row Testimonial.t := Testimonial.id.
#[export] Instance gallery_row : Row Gallery.t := Gallery.id.
#[export] Instance post_row : Row Post.t := Post.id.
#[export] Instance appointment_row : Row Appointment.t := Appointment.id.
#[export] Instance contact_row : Row Contact.t := Contact.id.

(** The database file: the eight tables [migrate] creates. *)
Record Db := {
  users : table User.t;
  services : table Service.t;
  team : table Team.t;
  testimonials : table Testimonial.t;
  gallery : table Gallery.t;
  posts : table Post.t;
  appointments : table Appointment.t;
  contacts : table Contact.t
}.

(** The state [migrate] leaves on a fresh file. *)
Definition empty_db : Db :=
  {| users := Table [] 0; services := Table [] 0; team := Table [] 0;
     testimonials := Table [] 0; gallery := Table [] 0; posts := Table [] 0;
     appointments := Table [] 0; contacts := Table [] 0 |}.

Definition set_users (db : Db) (t : table User.t) : Db :=
  {| users := t; services := services db; team := team db;
     testimonials := testimonials db; gallery := gallery db;
     posts := posts db; appointments := appointments db;
     contacts := contacts db |}.

Definition set_services (db : Db) (t : table Service.t) : Db :=
  {| users := users db; services := t; team := team db;
     testimonials := testimonials db; gallery := gallery db;
     posts := posts db; appointments := appointments db;
     contacts := contacts db |}.

Definition set_team (db : Db) (t : table Team.t) : Db :=
  {| users := users db; services := services db; team := t;
     testimonials := testimonials db; gallery := gallery db;
     posts := posts db; appointments := appointments db;
     contacts := contacts db |}.

Definition set_testimonials (db : Db) (t : table Testimonial.t) : Db :=
  {| users := users db; services := services db; team := team db;
     testimonials := t; gallery := gallery db;
     posts := posts db; appointments := appointments db;
     contacts := contacts db |}.

Definition set_gallery (db : Db) (t : table Gallery.t) : Db :=
  {| users := users db; services := services db; team := team db;
     testimonials := testimonials db; gallery := t;
     posts := posts db; appointments := appointments db;
     contacts := contacts db |}.

Definition set_posts (db : Db) (t : table Post.t) : Db :=
  {| users := users db; services := services db; team := team db;
     testimonials := testimonials db; gallery := gallery db;
     posts := t; appointments := appointments db;
     contacts := contacts db |}.

Definition set_appointments (db : Db) (t : table Appointment.t) : Db :=
  {| users := users db; services := services db; team := team db;
     testimonials := testimonials db; gallery := gallery db;
     posts := posts db; appointments := t;
     contacts := contacts db |}.

Definition set_contacts (db : Db) (t : table Contact.t) : Db :=
  {| users := users db; services := services db; team := team db;
     testimonials := testimonials db; gallery := gallery db;
     posts := posts db; appointments := appointments db;
     contacts := t |}.

(** ** The process environment, requests and responses *)

Record Env := {
  JWT_SECRET : option string;
  ADMIN_EMAIL : option string;
  ADMIN_PASSWORD : option string
}.

(** What the handlers read of a request: the [Authorization] header, the
    [:id] path parameter, the parsed JSON body, and [req.user] once the
    authentication middleware has set it. *)
Record Request := {
  authorization : option string;
  params_id : string;
  body : option jvalue;
  user : option jvalue
}.

Inductive payload :=
| Json (v : jvalue)
| ValidationError (e : Zod.zflat)
| Unhandled.

Record Response := Res { status : Z; sent : payload }.

(** [res.status(code).json({ error: msg })]. *)
Definition error_json (code : Z) (msg : string) : Response :=
  Res code (Json (JObj [("error", JStr msg)])).

(** [res.json(v)]: the status stays 200. *)
Definition ok_json (v : jvalue) : Response := Res 200 (Json v).

(** A middleware either answers or hands the request on. *)
Inductive outcome :=
| Respond (r : Response)
| Next (req : Request).

Definition middleware := Request → outcome.

(** Express runs a stack in order; a layer runs only once its predecessor
    has called [next]. The result records which layers ran. *)
Fixpoint run_stack (stack : list (string * middleware)) (req : Request)
  : list string * outcome :=
  match stack with
  | [] => ([], Next req)
  | (name, m) :: rest =>
      match m req with
      | Respond r => ([name], Respond r)
      | Next req' =>
          let '(ran, out) := run_stack rest req' in (name :: ran, out)
      end
  end.

Section Barbearia.
Context `{Platform}.

Import Zod.

(** ** db.js *)

Definition seedIfEmpty (now : Z) (db : Db) : Db :=
  let count := length (rows (services db)) in
  if decide (count = 0%nat) then
    let insert1 t title description price_cents :=
      fst (insert t (λ id,
        Service.Build id title (Some description) price_cents 1 now)) in
    let t1 := insert1 (services db)
                "Corte Clássico" "Tesoura e máquina, finalização." 4000 in
    let t2 := insert1 t1 "Barba Modelada" "Desenho e hidratação." 3000 in
    let t3 := insert1 t2 "Corte + Barba" "Combo especial." 7000 in
    set_services db t3
  else db.

(** ** auth.js *)

(** [jwt.sign] throws on a missing or empty secret: [None]. *)
Definition signToken (env : Env) (now : Z) (user : User.t) : option string :=
  match JWT_SECRET env with
  | None | Some "" => None
  | Some secret =>
      Some (jwt_sign secret
              (JObj [("sub", JInt (User.id user));
                     ("role", JStr (User.role user));
                     ("email", JStr (User.email user))])
              now)
  end.

(** [header.startsWith('Bearer ') ? header.slice(7) : null]. *)
Definition bearer_token (header : string) : option string :=
  if startsWith header "Bearer " then Some (slice 7 header) else None.

Definition authMiddleware (env : Env) (now : Z) : middleware := λ req,
  let header := default "" (authorization req) in
  match bearer_token header with
  | None | Some "" => Respond (error_json 401 "missing_token")
  | Some token =>
      match jwt_verify (JWT_SECRET env) token now with
      | Some payload =>
          Next {| authorization := authorization req;
                  params_id := params_id req;
                  body := body req;
                  user := Some payload |}
      | None => Respond (error_json 401 "invalid_token")
      end
  end.

(** [u?.role]: only an object carries properties of its own. *)
Definition role_of (u : option jvalue) : option jvalue :=
  match u with
  | Some (JObj claims) => obj_get "role" claims
  | _ => None
  end.

(** [v === 'admin']. *)
Definition is_admin_string (v : option jvalue) : bool :=
  match v with
  | Some (JStr s) => bool_decide (s = "admin")
  | _ => false
  end.

Definition ensureAdmin : middleware := λ req,
  if negb (is_admin_string (role_of (user req)))
  then Respond (error_json 403 "forbidden")
  else Next req.

(** [!s] on an environment variable. *)
Definition unset (s : option string) : bool :=
  match s with
  | None | Some "" => true
  | Some _ => false
  end.

Definition ensureAdminUser (env : Env) (now entropy : Z) (db : Db) : Db :=
  let email := ADMIN_EMAIL env in
  let pwd := ADMIN_PASSWORD env in
  if unset email || unset pwd then db
  else
    let email := default "" email in
    let pwd := default "" pwd in
    match select_get (users db) (λ u, User.email u = email) with
    | Some _ => db
    | None =>
        let hash := bcrypt_hashSync pwd entropy in
        set_users db
          (fst (insert (users db) (λ id, User.Build id email hash "admin" now)))
    end.

Definition verifyPassword (hash plain : string) : bool :=
  bcrypt_compareSync plain hash.

(** ** server.js *)

(** The boot sequence, after [migrate]. *)
Definition startup (env : Env) (now entropy : Z) (db : Db) : Db :=
  ensureAdminUser env now entropy (seedIfEmpty now db).

(** *** Validation schemas *)

Definition LoginSchema :=
  SField "email" (ZString [Email])
  (SField "password" (ZString [Min 3%nat]) SEnd).

Definition AppointmentSchema :=
  SField "name" (ZString [Min 2%nat])
  (SField "phone" (ZString [Min 6%nat])
  (SField "email" (ZString [Email])
  (SField "service" (ZNullable (ZOptional (ZString [])))
  (SField "datetime" (ZNullable (ZOptional (ZString [])))
  (SField "notes" (ZNullable (ZOptional (ZString []))) SEnd))))).

Definition ContactSchema :=
  SField "name" (ZString [Min 2%nat])
  (SField "email" (ZString [Email])
  (SField "message" (ZString [Min 2%nat]) SEnd)).

(** The POST and the PUT handler of an entity declare the same schema. *)
Definition ServiceSchema :=
  SField "title" (ZString [Min 2%nat])
  (SField "description" (ZOptional (ZString []))
  (SField "price_cents" (ZInt [NMin 0])
  (SField "active" (ZOptional ZBoolean) SEnd))).

Definition TeamSchema :=
  SField "name" (ZString [Min 2%nat])
  (SField "role" (ZOptional (ZString []))
  (SField "photo_url" (ZOptional (ZString [Url]))
  (SField "active" (ZOptional ZBoolean) SEnd))).

Definition TestimonialSchema :=
  SField "author" (ZString [Min 2%nat])
  (SField "content" (ZString [Min 2%nat])
  (SField "rating" (ZInt [NMin 1; NMax 5])
  (SField "active" (ZOptional ZBoolean) SEnd))).

Definition GallerySchema :=
  SField "image_url" (ZString [Url])
  (SField "caption" (ZOptional (ZString []))
  (SField "active" (ZOptional ZBoolean) SEnd)).

Definition PostSchema :=
  SField "title" (ZString [Min 2%nat])
  (SField "excerpt" (ZOptional (ZString []))
  (SField "content" (ZOptional (ZString []))
  (SField "cover_url" (ZOptional (ZString [Url]))
  (SField "published" (ZOptional ZBoolean) SEnd)))).

Definition StatusSchema :=
  SField "status" (ZEnum ["pending"; "confirmed"; "canceled"]) SEnd.

(** [res.status(400).json({ error: parsed.error.flatten() })]. *)
Definition bad_request (issues : list zissue) : Response :=
  Res 400 (ValidationError (flatten issues)).

(** *** Authentication *)

Definition post_auth_login (env : Env) (req : Request) (now : Z) (db : Db)
  : Response * Db :=
  match safeParse LoginSchema (body req) with
  | inl issues => (bad_request issues, db)
  | inr (email, (password, tt)) =>
      match select_get (users db) (λ u, User.email u = email) with
      | None => (error_json 401 "invalid_credentials", db)
      | Some user =>
          if negb (verifyPassword (User.password_hash user) password)
          then (error_json 401 "invalid_credentials", db)
          else
            match signToken env now user with
            | Some token => (ok_json (JObj [("token", JStr token)]), db)
            | None => (Res 500 Unhandled, db)
            end
      end
  end.

(** *** Public reads *)

Definition services_public (r : Service.t) : jvalue :=
  JObj [("id", JInt (Service.id r)); ("title", JStr (Service.title r));
        ("description", JText (Service.description r));
        ("price_cents", JInt (Service.price_cents r))].

Definition team_public (r : Team.t) : jvalue :=
  JObj [("id", JInt (Team.id r)); ("name", JStr (Team.name r));
        ("role", JText (Team.role r));
        ("photo_url", JText (Team.photo_url r))].

Definition testimonials_public (r : Testimonial.t) : jvalue :=
  JObj [("id", JInt (Testimonial.id r));
        ("author", JStr (Testimonial.author r));
        ("content", JStr (Testimonial.content r));
        ("rating", JInt (Testimonial.rating r))].

Definition gallery_public (r : Gallery.t) : jvalue :=
  JObj [("id", JInt (Gallery.id r));
        ("image_url", JStr (Gallery.image_url r));
        ("caption", JText (Gallery.caption r))].

Definition posts_public (r : Post.t) : jvalue :=
  JObj [("id", JInt (Post.id r)); ("title", JStr (Post.title r));
        ("excerpt", JText (Post.excerpt r));
        ("cover_url", JText (Post.cover_url r));
        ("created_at", JInt (Post.created_at r))].

Definition posts_detail (r : Post.t) : jvalue :=
  JObj [("id", JInt (Post.id r)); ("title", JStr (Post.title r));
        ("excerpt", JText (Post.excerpt r));
        ("content", JText (Post.content r));
        ("cover_url", JText (Post.cover_url r));
        ("created_at", JInt (Post.created_at r))].

Definition get_services (db : Db) : Response * Db :=
  let rows := select_all (services db) (λ r, Service.active r = 1)
                Asc None services_public in
  (ok_json (JArr rows), db).

Definition get_team (db : Db) : Response * Db :=
  let rows := select_all (team db) (λ r, Team.active r = 1)
                Asc None team_public in
  (ok_json (JArr rows), db).

Definition get_testimonials (db : Db) : Response * Db :=
  let rows := select_all (testimonials db) (λ r, Testimonial.active r = 1)
                Desc (Some 12%nat) testimonials_public in
  (ok_json (JArr rows), db).

Definition get_gallery (db : Db) : Response * Db :=
  let rows := select_all (gallery db) (λ r, Gallery.active r = 1)
                Desc (Some 24%nat) gallery_public in
  (ok_json (JArr rows), db).

Definition get_posts (db : Db) : Response * Db :=
  let rows := select_all (posts db) (λ r, Post.published r = 1)
                Desc (Some 20%nat) posts_public in
  (ok_json (JArr rows), db).

Definition get_posts_id (req : Request) (db : Db) : Response * Db :=
  match select_get (posts db)
          (λ r, id_is (params_id req) r ∧ Post.published r = 1) with
  | None => (error_json 404 "not_found", db)
  | Some row => (ok_json (posts_detail row), db)
  end.

(** *** Public writes *)

Definition post_appointments (req : Request) (now : Z) (db : Db)
  : Response * Db :=
  match safeParse AppointmentSchema (body req) with
  | inl issues => (bad_request issues, db)
  | inr (name, (phone, (email, (service, (datetime, (notes, tt)))))) =>
      let '(t, info) :=
        insert (appointments db) (λ id,
          Appointment.Build id name phone email
            (or_null (mjoin service))
            (or_null (mjoin datetime))
            (or_null (mjoin notes))
            "pending" now) in
      (Res 201 (Json (JObj [("id", JInt (lastInsertRowid info));
                            ("status", JStr "pending")])),
       set_appointments db t)
  end.

Definition post_contact (req : Request) (now : Z) (db : Db)
  : Response * Db :=
  match safeParse ContactSchema (body req) with
  | inl issues => (bad_request issues, db)
  | inr (name, (email, (message, tt))) =>
      let '(t, info) :=
        insert (contacts db) (λ id, Contact.Build id name email message now) in
      (Res 201 (Json (JObj [("id", JInt (lastInsertRowid info))])),
       set_contacts db t)
  end.

(** *** Admin: [SELECT *] row images *)

Definition services_star (r : Service.t) : jvalue :=
  JObj [("id", JInt (Service.id r)); ("title", JStr (Service.title r));
        ("description", JText (Service.description r));
        ("price_cents", JInt (Service.price_cents r));
        ("active", JInt (Service.active r));
        ("created_at", JInt (Service.created_at r))].

Definition team_star (r : Team.t) : jvalue :=
  JObj [("id", JInt (Team.id r)); ("name", JStr (Team.name r));
        ("role", JText (Team.role r));
        ("photo_url", JText (Team.photo_url r));
        ("active", JInt (Team.active r));
        ("created_at", JInt (Team.created_at r))].

Definition testimonials_star (r : Testimonial.t) : jvalue :=
  JObj [("id", JInt (Testimonial.id r));
        ("author", JStr (Testimonial.author r));
        ("content", JStr (Testimonial.content r));
        ("rating", JInt (Testimonial.rating r));
        ("active", JInt (Testimonial.active r));
        ("created_at", JInt (Testimonial.created_at r))].

Definition gallery_star (r : Gallery.t) : jvalue :=
  JObj [("id", JInt (Gallery.id r));
        ("image_url", JStr (Gallery.image_url r));
        ("caption", JText (Gallery.caption r));
        ("active", JInt (Gallery.active r));
        ("created_at", JInt (Gallery.created_at r))].

Definition posts_star (r : Post.t) : jvalue :=
  JObj [("id", JInt (Post.id r)); ("title", JStr (Post.title r));
        ("excerpt", JText (Post.excerpt r));
        ("content", JText (Post.content r));
        ("cover_url", JText (Post.cover_url r));
        ("published", JInt (Post.published r));
        ("created_at", JInt (Post.created_at r))].

Definition appointments_star (r : Appointment.t) : jvalue :=
  JObj [("id", JInt (Appointment.id r)); ("name", JStr (Appointment.name r));
        ("phone", JStr (Appointment.phone r));
        ("email", JStr (Appointment.email r));
        ("service", JText (Appointment.service r));
        ("datetime", JText (Appointment.datetime r));
        ("notes", JText (Appointment.notes r));
        ("status", JStr (Appointment.status r));
        ("created_at", JInt (Appointment.created_at r))].

Definition contacts_star (r : Contact.t) : jvalue :=
  JObj [("id", JInt (Contact.id r)); ("name", JStr (Contact.name r));
        ("email", JStr (Contact.email r));
        ("message", JStr (Contact.message r));
        ("created_at", JInt (Contact.created_at r))].

(** [res.status(201).json({ id: info.lastInsertRowid })]. *)
Definition created (i : info) : Response :=
  Res 201 (Json (JObj [("id", JInt (lastInsertRowid i))])).

(** [res.json({ updated: info.changes })]. *)
Definition updated (i : info) : Response :=
  ok_json (JObj [("updated", JInt (changes i))]).

(** [res.json({ deleted: info.changes })]. *)
Definition deleted (i : info) : Response :=
  ok_json (JObj [("deleted", JInt (changes i))]).

(** *** Admin: services *)

Definition get_admin_services (db : Db) : Response * Db :=
  (ok_json (JArr (select_all (services db) (λ _, True) Desc None
                    services_star)), db).

Definition post_admin_services (req : Request) (now : Z) (db : Db)
  : Response * Db :=
  match safeParse ServiceSchema (body req) with
  | inl issues => (bad_request issues, db)
  | inr (title, (description, (price_cents, (active, tt)))) =>
      let '(t, info) :=
        insert (services db) (λ id,
          Service.Build id title (or_null description) price_cents
            (flag (nullish active true)) now) in
      (created info, set_services db t)
  end.

Definition put_admin_services (req : Request) (db : Db) : Response * Db :=
  match safeParse ServiceSchema (body req) with
  | inl issues => (bad_request issues, db)
  | inr (title, (description, (price_cents, (active, tt)))) =>
      let '(t, info) :=
        update_by_id (services db) (params_id req) (λ r,
          Service.Build (Service.id r) title (or_null description) price_cents
            (flag (nullish active true)) (Service.created_at r)) in
      (updated info, set_services db t)
  end.

Definition delete_admin_services (req : Request) (db : Db) : Response * Db :=
  let '(t, info) := delete_by_id (services db) (params_id req) in
  (deleted info, set_services db t).

(** *** Admin: team *)

Definition get_admin_team (db : Db) : Response * Db :=
  (ok_json (JArr (select_all (team db) (λ _, True) Desc None team_star)), db).

Definition post_admin_team (req : Request) (now : Z) (db : Db)
  : Response * Db :=
  match safeParse TeamSchema (body req) with
  | inl issues => (bad_request issues, db)
  | inr (name, (role, (photo_url, (active, tt)))) =>
      let '(t, info) :=
        insert (team db) (λ id,
          Team.Build id name (or_null role) (or_null photo_url)
            (flag (nullish active true)) now) in
      (created info, set_team db t)
  end.

Definition put_admin_team (req : Request) (db : Db) : Response * Db :=
  match safeParse TeamSchema (body req) with
  | inl issues => (bad_request issues, db)
  | inr (name, (role, (photo_url, (active, tt)))) =>
      let '(t, info) :=
        update_by_id (team db) (params_id req) (λ r,
          Team.Build (Team.id r) name (or_null role) (or_null photo_url)
            (flag (nullish active true)) (Team.created_at r)) in
      (updated info, set_team db t)
  end.

Definition delete_admin_team (req : Request) (db : Db) : Response * Db :=
  let '(t, info) := delete_by_id (team db) (params_id req) in
  (deleted info, set_team db t).

(** *** Admin: testimonials *)

Definition get_admin_testimonials (db : Db) : Response * Db :=
  (ok_json (JArr (select_all (testimonials db) (λ _, True) Desc None
                    testimonials_star)), db).

Definition post_admin_testimonials (req : Request) (now : Z) (db : Db)
  : Response * Db :=
  match safeParse TestimonialSchema (body req) with
  | inl issues => (bad_request issues, db)
  | inr (author, (content, (rating, (active, tt)))) =>
      let '(t, info) :=
        insert (testimonials db) (λ id,
          Testimonial.Build id author content rating
            (flag (nullish active true)) now) in
      (created info, set_testimonials db t)
  end.

Definition put_admin_testimonials (req : Request) (db : Db)
  : Response * Db :=
  match safeParse TestimonialSchema (body req) with
  | inl issues => (bad_request issues, db)
  | inr (author, (content, (rating, (active, tt)))) =>
      let '(t, info) :=
        update_by_id (testimonials db) (params_id req) (λ r,
          Testimonial.Build (Testimonial.id r) author content rating
            (flag (nullish active true)) (Testimonial.created_at r)) in
      (updated info, set_testimonials db t)
  end.

Definition delete_admin_testimonials (req : Request) (db : Db)
  : Response * Db :=
  let '(t, info) := delete_by_id (testimonials db) (params_id req) in
  (deleted info, set_testimonials db t).

(** *** Admin: gallery *)

Definition get_admin_gallery (db : Db) : Response * Db :=
  (ok_json (JArr (select_all (gallery db) (λ _, True) Desc None
                    gallery_star)), db).

Definition post_admin_gallery (req : Request) (now : Z) (db : Db)
  : Response * Db :=
  match safeParse GallerySchema (body req) with
  | inl issues => (bad_request issues, db)
  | inr (image_url, (caption, (active, tt))) =>
      let '(t, info) :=
        insert (gallery db) (λ id,
          Gallery.Build id image_url (or_null caption)
            (flag (nullish active true)) now) in
      (created info, set_gallery db t)
  end.

Definition put_admin_gallery (req : Request) (db : Db) : Response * Db :=
  match safeParse GallerySchema (body req) with
  | inl issues => (bad_request issues, db)
  | inr (image_url, (caption, (active, tt))) =>
      let '(t, info) :=
        update_by_id (gallery db) (params_id req) (λ r,
          Gallery.Build (Gallery.id r) image_url (or_null caption)
            (flag (nullish active true)) (Gallery.created_at r)) in
      (updated info, set_gallery db t)
  end.

Definition delete_admin_gallery (req : Request) (db : Db) : Response * Db :=
  let '(t, info) := delete_by_id (gallery db) (params_id req) in
  (deleted info, set_gallery db t).

(** *** Admin: posts *)

Definition get_admin_posts (db : Db) : Response * Db :=
  (ok_json (JArr (select_all (posts db) (λ _, True) Desc None posts_star)),
   db).

Definition post_admin_posts (req : Request) (now : Z) (db : Db)
  : Response * Db :=
  match safeParse PostSchema (body req) with
  | inl issues => (bad_request issues, db)
  | inr (title, (excerpt, (content, (cover_url, (published, tt))))) =>
      let '(t, info) :=
        insert (posts db) (λ id,
          Post.Build id title (or_null excerpt) (or_null content)
            (or_null cover_url) (flag (nullish published false)) now) in
      (created info, set_posts db t)
  end.

Definition put_admin_posts (req : Request) (db : Db) : Response * Db :=
  match safeParse PostSchema (body req) with
  | inl issues => (bad_request issues, db)
  | inr (title, (excerpt, (content, (cover_url, (published, tt))))) =>
      let '(t, info) :=
        update_by_id (posts db) (params_id req) (λ r,
          Post.Build (Post.id r) title (or_null excerpt) (or_null content)
            (or_null cover_url) (flag (nullish published false))
            (Post.created_at r)) in
      (updated info, set_posts db t)
  end.

Definition delete_admin_posts (req : Request) (db : Db) : Response * Db :=
  let '(t, info) := delete_by_id (posts db) (params_id req) in
  (deleted info, set_posts db t).

(** *** Admin: appointments *)

Definition get_admin_appointments (db : Db) : Response * Db :=
  let rows := select_all (appointments db) (λ _, True) Desc None
                appointments_star in
  (ok_json (JArr rows), db).

Definition put_admin_appointments_status (req : Request) (db : Db)
  : Response * Db :=
  match safeParse StatusSchema (body req) with
  | inl issues => (bad_request issues, db)
  | inr (status, tt) =>
      let '(t, info) :=
        update_by_id (appointments db) (params_id req) (λ r,
          Appointment.Build (Appointment.id r) (Appointment.name r)
            (Appointment.phone r) (Appointment.email r)
            (Appointment.service r) (Appointment.datetime r)
            (Appointment.notes r) status (Appointment.created_at r)) in
      (updated info, set_appointments db t)
  end.

Definition delete_admin_appointments (req : Request) (db : Db)
  : Response * Db :=
  let '(t, info) := delete_by_id (appointments db) (params_id req) in
  (deleted info, set_appointments db t).

(** *** Admin: contacts *)

Definition get_admin_contacts (db : Db) : Response * Db :=
  let rows := select_all (contacts db) (λ _, True) Desc None contacts_star in
  (ok_json (JArr rows), db).

Definition delete_admin_contacts (req : Request) (db : Db) : Response * Db :=
  let '(t, info) := delete_by_id (contacts db) (params_id req) in
  (deleted info, set_contacts db t).

Definition get_health (db : Db) : Response * Db :=
  (ok_json (JObj [("ok", JBool true)]), db).

(** *** The application *)

(** The entities with an admin CRUD surface. *)
Inductive entity := Services | TeamMembers | Testimonials | GalleryItems | Posts.

(** The registered (method, path) pairs. *)
Inductive Route :=
| PostAuthLogin
| GetPublic (e : entity)
| GetPostsId
| PostAppointments
| PostContact
| GetAdmin (e : entity)
| PostAdmin (e : entity)
| PutAdmin (e : entity)
| DeleteAdmin (e : entity)
| GetAdminAppointments
| PutAdminAppointmentsStatus
| DeleteAdminAppointments
| GetAdminContacts
| DeleteAdminContacts
| GetHealth.

(** Whether the path lies under [/admin]. *)
Definition under_admin (r : Route) : bool :=
  match r with
  | GetAdmin _ | PostAdmin _ | PutAdmin _ | DeleteAdmin _
  | GetAdminAppointments | PutAdminAppointmentsStatus
  | DeleteAdminAppointments | GetAdminContacts | DeleteAdminContacts => true
  | _ => false
  end.

(** The callback registered for a route. *)
Definition handler (env : Env) (r : Route) (req : Request) (now : Z) (db : Db)
  : Response * Db :=
  match r with
  | PostAuthLogin => post_auth_login env req now db
  | GetPublic Services => get_services db
  | GetPublic TeamMembers => get_team db
  | GetPublic Testimonials => get_testimonials db
  | GetPublic GalleryItems => get_gallery db
  | GetPublic Posts => get_posts db
  | GetPostsId => get_posts_id req db
  | PostAppointments => post_appointments req now db
  | PostContact => post_contact req now db
  | GetAdmin Services => get_admin_services db
  | GetAdmin TeamMembers => get_admin_team db
  | GetAdmin Testimonials => get_admin_testimonials db
  | GetAdmin GalleryItems => get_admin_gallery db
  | GetAdmin Posts => get_admin_posts db
  | PostAdmin Services => post_admin_services req now db
  | PostAdmin TeamMembers => post_admin_team req now db
  | PostAdmin Testimonials => post_admin_testimonials req now db
  | PostAdmin GalleryItems => post_admin_gallery req now db
  | PostAdmin Posts => post_admin_posts req now db
  | PutAdmin Services => put_admin_services req db
  | PutAdmin TeamMembers => put_admin_team req db
  | PutAdmin Testimonials => put_admin_testimonials req db
  | PutAdmin GalleryItems => put_admin_gallery req db
  | PutAdmin Posts => put_admin_posts req db
  | DeleteAdmin Services => delete_admin_services req db
  | DeleteAdmin TeamMembers => delete_admin_team req db
  | DeleteAdmin Testimonials => delete_admin_testimonials req db
  | DeleteAdmin GalleryItems => delete_admin_gallery req db
  | DeleteAdmin Posts => delete_admin_posts req db
  | GetAdminAppointments => get_admin_appointments db
  | PutAdminAppointmentsStatus => put_admin_appointments_status req db
  | DeleteAdminAppointments => delete_admin_appointments req db
  | GetAdminContacts => get_admin_contacts db
  | DeleteAdminContacts => delete_admin_contacts req db
  | GetHealth => get_health db
  end.

(** The schema a write route validates its body with. *)
Definition schema_of (r : Route) : option {A : Type & zshape A} :=
  match r with
  | PostAuthLogin => Some (existT _ LoginSchema)
  | PostAppointments => Some (existT _ AppointmentSchema)
  | PostContact => Some (existT _ ContactSchema)
  | PostAdmin Services | PutAdmin Services => Some (existT _ ServiceSchema)
  | PostAdmin TeamMembers | PutAdmin TeamMembers => Some (existT _ TeamSchema)
  | PostAdmin Testimonials | PutAdmin Testimonials =>
      Some (existT _ TestimonialSchema)
  | PostAdmin GalleryItems | PutAdmin GalleryItems =>
      Some (existT _ GallerySchema)
  | PostAdmin Posts | PutAdmin Posts => Some (existT _ PostSchema)
  | PutAdminAppointmentsStatus => Some (existT _ StatusSchema)
  | _ => None
  end.

(** The issues [safeParse] raises on a route's body; none when the body
    is accepted or the route validates nothing. *)
Definition issues_of (r : Route) (b : option jvalue) : list zissue :=
  match schema_of r with
  | Some (existT _ s) =>
      match safeParse s b with
      | inl issues => issues
      | inr _ => []
      end
  | None => []
  end.

(** [app.use("/admin", authMiddleware, ensureAdmin)]. *)
Definition admin_gate (env : Env) (now : Z) (req : Request)
  : list string * outcome :=
  run_stack [("authMiddleware", authMiddleware env now);
             ("ensureAdmin", ensureAdmin)] req.

(** One request through the application: the gate for paths under
    [/admin], then the route's callback. *)
Definition app (env : Env) (r : Route) (req : Request) (now : Z) (db : Db)
  : Response * Db :=
  if under_admin r then
    match snd (admin_gate env now req) with
    | Respond res => (res, db)
    | Next req' => handler env r req' now db
    end
  else handler env r req now db.

End Barbearia.

(** ** A reference platform

    A small executable instance of the third-party interface, to run the
    model on concrete requests. *)

Module Demo.

Fixpoint contains_at (s : string) : bool :=
  match s with
  | EmptyString => false
  | String c s' => if Ascii.eqb c "@"%char then true else contains_at s'
  end.

Definition digit (c : ascii) : option Z :=
  let n := Z.of_nat (nat_of_ascii c) in
  if (48 <=? n) && (n <=? 57) then Some (n - 48) else None.

Fixpoint decimal (acc : Z) (s : string) : option Z :=
  match s with
  | EmptyString => Some acc
  | String c s' =>
      match digit c with
      | Some d => decimal (10 * acc + d) s'
      | None => None
      end
  end.

Definition numeric (s : string) : option Z :=
  match s with
  | EmptyString => None
  | _ => decimal 0 s
  end.

(** Tokens are the role they carry, prefixed by the signing secret. *)
Definition sign (secret : string) (payload : jvalue) (now : Z) : string :=
  match payload with
  | JObj claims =>
      match obj_get "role" claims with
      | Some (JStr r) => secret +:+ ":" +:+ r
      | _ => secret +:+ ":"
      end
  | _ => secret +:+ ":"
  end.

Definition verify (secret : option string) (token : string) (now : Z)
  : option jvalue :=
  match secret with
  | Some k =>
      if startsWith token (k +:+ ":")
      then Some (JObj [("role", JStr (slice (String.length k + 1) token))])
      else None
  | None => None
  end.

#[export] Instance platform : Platform := {|
  zod_email := contains_at;
  zod_url := λ s, startsWith s "http";
  jwt_sign := sign;
  jwt_verify := verify;
  bcrypt_hashSync := λ pwd _, "$2a$10$" +:+ pwd;
  bcrypt_compareSync := λ plain hash, bool_decide (hash = "$2a$10$" +:+ plain);
  sqlite_numeric := numeric
|}.

Definition env : Env :=
  {| JWT_SECRET := Some "s3cret";
     ADMIN_EMAIL := Some "admin@barbearia.com";
     ADMIN_PASSWORD := Some "admin123" |}.

Definition request (auth : option string) (id : string) (b : option jvalue)
  : Request :=
  {| authorization := auth; params_id := id; body := b; user := None |}.

Definition admin_request (id : string) (b : option jvalue) : Request :=
  request (Some "Bearer s3cret:admin") id b.

(** The database after the first boot at clock 1000. *)
Definition booted : Db := startup env 1000 7 empty_db.

Definition ana : jvalue :=
  JObj [("name", JStr "Ana Silva"); ("phone", JStr "11999999999");
        ("email", JStr "ana@x.com")].

(** ... after Ana has asked for an appointment, *)
Definition with_appointment : Db :=
  snd (app env PostAppointments (request None "" (Some ana)) 2000 booted).

(** ... after the admin has hidden service 2, *)
Definition with_hidden_service : Db :=
  snd (app env (PutAdmin Services)
         (admin_request "2"
            (Some (JObj [("title", JStr "Barba Modelada");
                         ("price_cents", JInt 3000);
                         ("active", JBool false)])))
         3000 booted).

(** ... after the admin has published a post, *)
Definition with_post : Db :=
  snd (app env (PostAdmin Posts)
         (admin_request ""
            (Some (JObj [("title", JStr "Novo corte");
                         ("published", JBool true)])))
         4000 booted).

(** ... and after the admin has entered two testimonials. *)
Definition testimonial (author : string) (rating : Z) : jvalue :=
  JObj [("author", JStr author); ("content", JStr "Muito bom");
        ("rating", JInt rating)].

Definition with_testimonials : Db :=
  snd (app env (PostAdmin Testimonials)
         (admin_request "" (Some (testimonial "Bia" 4))) 6000
         (snd (app env (PostAdmin Testimonials)
                 (admin_request "" (Some (testimonial "Caio" 5))) 5000
                 booted))).

End Demo.

(** ** Vocabulary of the properties *)

Section Vocabulary.
Context `{Platform}.

Import Zod.

(** The request carries a bearer token that verifies and whose role claim
    is the string "admin". *)
Definition authorized (env : Env) (now : Z) (req : Request) : Prop :=
  ∃ token claims,
    authorization req = Some ("Bearer " +:+ token) ∧ token ≠ ""
    ∧ jwt_verify (JWT_SECRET env) token now = Some claims
    ∧ role_of (Some claims) = Some (JStr "admin").

(** The route's schema accepts, respectively rejects, the body. *)
Definition accepted (r : Route) (b : option jvalue) : Prop := issues_of r b = [].
Definition rejected (r : Route) (b : option jvalue) : Prop := issues_of r b ≠ [].

(** The routes whose statement is [UPDATE ... WHERE id = ?] or
    [DELETE ... WHERE id = ?]. *)
Definition by_id (r : Route) : bool :=
  match r with
  | PutAdmin _ | DeleteAdmin _ | PutAdminAppointmentsStatus
  | DeleteAdminAppointments | DeleteAdminContacts => true
  | _ => false
  end.

(** The ids present in the table such a route addresses. *)
Definition target_ids (r : Route) (db : Db) : list Z :=
  match r with
  | PutAdmin Services | DeleteAdmin Services => rowid <$> rows (services db)
  | PutAdmin TeamMembers | DeleteAdmin TeamMembers => rowid <$> rows (team db)
  | PutAdmin Testimonials | DeleteAdmin Testimonials =>
      rowid <$> rows (testimonials db)
  | PutAdmin GalleryItems | DeleteAdmin GalleryItems =>
      rowid <$> rows (gallery db)
  | PutAdmin Posts | DeleteAdmin Posts => rowid <$> rows (posts db)
  | PutAdminAppointmentsStatus | DeleteAdminAppointments =>
      rowid <$> rows (appointments db)
  | DeleteAdminContacts => rowid <$> rows (contacts db)
  | _ => []
  end.

(** The key of the count such a route reports. *)
Definition counter (r : Route) : string :=
  match r with
  | PutAdmin _ | PutAdminAppointmentsStatus => "updated"
  | _ => "deleted"
  end.

(** The visibility column of an entity, the value its PUT handler falls
    back to, and the (id, flag) pairs of its rows in table order. *)
Definition flag_name (e : entity) : string :=
  match e with
  | Posts => "published"
  | _ => "active"
  end.

Definition fallback_flag (e : entity) : Z :=
  match e with
  | Posts => 0
  | _ => 1
  end.

Definition flags_of (e : entity) (db : Db) : list (Z * Z) :=
  match e with
  | Services => (λ r, (Service.id r, Service.active r)) <$> rows (services db)
  | TeamMembers => (λ r, (Team.id r, Team.active r)) <$> rows (team db)
  | Testimonials =>
      (λ r, (Testimonial.id r, Testimonial.active r))
        <$> rows (testimonials db)
  | GalleryItems =>
      (λ r, (Gallery.id r, Gallery.active r)) <$> rows (gallery db)
  | Posts => (λ r, (Post.id r, Post.published r)) <$> rows (posts db)
  end.

(** Two appointment rows that agree on every column but [status]. *)
Definition same_but_status (r r' : Appointment.t) : Prop :=
  Appointment.id r' = Appointment.id r
  ∧ Appointment.name r' = Appointment.name r
  ∧ Appointment.phone r' = Appointment.phone r
  ∧ Appointment.email r' = Appointment.email r
  ∧ Appointment.service r' = Appointment.service r
  ∧ Appointment.datetime r' = Appointment.datetime r
  ∧ Appointment.notes r' = Appointment.notes r
  ∧ Appointment.created_at r' = Appointment.created_at r.

(** An optional text field of a body: absent, [null] or a string. *)
Definition optional_text (v : option jvalue) : Prop :=
  v = None ∨ v = Some JNull ∨ ∃ s, v = Some (JStr s).

(** The issues a field of a schema raises on an object body, by name:
    those of its type on the field's value. *)
Fixpoint field_codes {A} (s : zshape A) (o : jobject) (f : string)
  : list zcode :=
  match s with
  | SEnd => []
  | SField name t rest =>
      (if decide (name = f)
       then match zparse t (obj_get name o) with
            | inl cs => cs
            | inr _ => []
            end
       else [])
      ++ field_codes rest o f
  end.

Definition route_field_codes (r : Route) (o : jobject) (f : string)
  : list zcode :=
  match schema_of r with
  | Some (existT _ s) => field_codes s o f
  | None => []
  end.

(** The codes of the issues on field [f], respectively on the body as a
    whole, in the order raised. *)
Definition codes_at (f : string) (issues : list zissue) : list zcode :=
  code <$> filter (λ i, path i = Some f) issues.

Definition form_codes (issues : list zissue) : list zcode :=
  code <$> filter (λ i, path i = None) issues.

(** A field-keyed map holds one entry per field with issues, listing all
    of them, and no entry for any other key. *)
Definition one_entry_per_invalid_field
    (m : gmap string (list zcode)) (codes : string → list zcode) : Prop :=
  ∀ f, m !! f = match codes f with
                | [] => None
                | cs => Some cs
                end.

(** The keys and the [id] of a serialized row. *)
Definition json_keys (v : jvalue) : list string :=
  match v with
  | JObj o => keys o
  | _ => []
  end.

Definition json_id (v : jvalue) : option jvalue :=
  match v with
  | JObj o => obj_get "id" o
  | _ => None
  end.

(** The columns a public list shows of an entity. *)
Definition public_columns (e : entity) : list string :=
  match e with
  | Services => ["id"; "title"; "description"; "price_cents"]
  | TeamMembers => ["id"; "name"; "role"; "photo_url"]
  | Testimonials => ["id"; "author"; "content"; "rating"]
  | GalleryItems => ["id"; "image_url"; "caption"]
  | Posts => ["id"; "title"; "excerpt"; "cover_url"; "created_at"]
  end.

(** [out] shows rows of [l] whose visibility flag is 1 and no others: each
    element is the image of such a row, and, ids being unique, the id of a
    row whose flag is not 1 is the id of no element. *)
Definition shows_visible {R} `{Row R} (l : list R) (visible : R → Z)
    (cols : R → jvalue) (out : list jvalue) : Prop :=
  (∀ v, v ∈ out → ∃ r, r ∈ l ∧ visible r = 1 ∧ v = cols r)
  ∧ (NoDup (rowid <$> l) →
     ∀ r, r ∈ l → visible r ≠ 1 →
     ∀ v, v ∈ out → json_id v ≠ Some (JInt (rowid r))).

Definition public_source (e : entity) (db : Db) (out : list jvalue) : Prop :=
  match e with
  | Services =>
      shows_visible (rows (services db)) Service.active services_public out
  | TeamMembers => shows_visible (rows (team db)) Team.active team_public out
  | Testimonials =>
      shows_visible (rows (testimonials db)) Testimonial.active
        testimonials_public out
  | GalleryItems =>
      shows_visible (rows (gallery db)) Gallery.active gallery_public out
  | Posts => shows_visible (rows (posts db)) Post.published posts_public out
  end.

(** The collection endpoints. *)
Inductive collection :=
| PublicOf (e : entity)
| AdminOf (e : entity)
| AdminAppointments
| AdminContacts.

Definition route_of (c : collection) : Route :=
  match c with
  | PublicOf e => GetPublic e
  | AdminOf e => GetAdmin e
  | AdminAppointments => GetAdminAppointments
  | AdminContacts => GetAdminContacts
  end.

(** The rows a collection endpoint selects from, each as its id and its
    image: the visible rows for a public list, every row of the table in
    full for an admin list. *)
Definition matching (c : collection) (db : Db) : list (Z * jvalue) :=
  match c with
  | PublicOf Services =>
      (λ r, (Service.id r, services_public r))
        <$> filter (λ r, Service.active r = 1) (rows (services db))
  | PublicOf TeamMembers =>
      (λ r, (Team.id r, team_public r))
        <$> filter (λ r, Team.active r = 1) (rows (team db))
  | PublicOf Testimonials =>
      (λ r, (Testimonial.id r, testimonials_public r))
        <$> filter (λ r, Testimonial.active r = 1) (rows (testimonials db))
  | PublicOf GalleryItems =>
      (λ r, (Gallery.id r, gallery_public r))
        <$> filter (λ r, Gallery.active r = 1) (rows (gallery db))
  | PublicOf Posts =>
      (λ r, (Post.id r, posts_public r))
        <$> filter (λ r, Post.published r = 1) (rows (posts db))
  | AdminOf Services =>
      (λ r, (Service.id r, services_star r)) <$> rows (services db)
  | AdminOf TeamMembers => (λ r, (Team.id r, team_star r)) <$> rows (team db)
  | AdminOf Testimonials =>
      (λ r, (Testimonial.id r, testimonials_star r))
        <$> rows (testimonials db)
  | AdminOf GalleryItems =>
      (λ r, (Gallery.id r, gallery_star r)) <$> rows (gallery db)
  | AdminOf Posts => (λ r, (Post.id r, posts_star r)) <$> rows (posts db)
  | AdminAppointments =>
      (λ r, (Appointment.id r, appointments_star r))
        <$> rows (appointments db)
  | AdminContacts =>
      (λ r, (Contact.id r, contacts_star r)) <$> rows (contacts db)
  end.

(** The columns of the table behind an admin collection, as [migrate]
    declares them; the public columns for a public list. *)
Definition listed_columns (c : collection) : list string :=
  match c with
  | PublicOf e => public_columns e
  | AdminOf Services =>
      ["id"; "title"; "description"; "price_cents"; "active"; "created_at"]
  | AdminOf TeamMembers =>
      ["id"; "name"; "role"; "photo_url"; "active"; "created_at"]
  | AdminOf Testimonials =>
      ["id"; "author"; "content"; "rating"; "active"; "created_at"]
  | AdminOf GalleryItems =>
      ["id"; "image_url"; "caption"; "active"; "created_at"]
  | AdminOf Posts =>
      ["id"; "title"; "excerpt"; "content"; "cover_url"; "published";
       "created_at"]
  | AdminAppointments =>
      ["id"; "name"; "phone"; "email"; "service"; "datetime"; "notes";
       "status"; "created_at"]
  | AdminContacts => ["id"; "name"; "email"; "message"; "created_at"]
  end.

(** The direction and the cap of each collection endpoint. *)
Definition newest_first (c : collection) : bool :=
  match c with
  | PublicOf Services | PublicOf TeamMembers => false
  | _ => true
  end.

Definition cap (c : collection) : option nat :=
  match c with
  | PublicOf Testimonials => Some 12%nat
  | PublicOf GalleryItems => Some 24%nat
  | PublicOf Posts => Some 20%nat
  | _ => None
  end.

Definition ascending (a b : Z * jvalue) : Prop := fst a ≤ fst b.
Definition descending (a b : Z * jvalue) : Prop := fst b ≤ fst a.

End Vocabulary.

(** ** Vocabulary of the store's invariants *)

Section Invariants.
Context `{Platform}.

(** The eight tables by name. *)
Inductive store :=
| TUsers | TServices | TTeam | TTestimonials | TGallery | TPosts
| TAppointments | TContacts.

Definition store_of (e : entity) : store :=
  match e with
  | Services => TServices
  | TeamMembers => TTeam
  | Testimonials => TTestimonials
  | GalleryItems => TGallery
  | Posts => TPosts
  end.

(** The table a route's statement writes, if it writes at all. *)
Definition writes (r : Route) : option store :=
  match r with
  | PostAppointments | PutAdminAppointmentsStatus | DeleteAdminAppointments =>
      Some TAppointments
  | PostContact | DeleteAdminContacts => Some TContacts
  | PostAdmin e | PutAdmin e | DeleteAdmin e => Some (store_of e)
  | _ => None
  end.

(** The routes whose statement is an INSERT. *)
Definition creates (r : Route) : bool :=
  match r with
  | PostAppointments | PostContact | PostAdmin _ => true
  | _ => false
  end.

(** The ids, the sequence counter and the (id, created_at) pairs of a
    table, in table order. *)
Definition ids_of (k : store) (db : Db) : list Z :=
  match k with
  | TUsers => rowid <$> rows (users db)
  | TServices => rowid <$> rows (services db)
  | TTeam => rowid <$> rows (team db)
  | TTestimonials => rowid <$> rows (testimonials db)
  | TGallery => rowid <$> rows (gallery db)
  | TPosts => rowid <$> rows (posts db)
  | TAppointments => rowid <$> rows (appointments db)
  | TContacts => rowid <$> rows (contacts db)
  end.

Definition seq_of (k : store) (db : Db) : Z :=
  match k with
  | TUsers => seq (users db)
  | TServices => seq (services db)
  | TTeam => seq (team db)
  | TTestimonials => seq (testimonials db)
  | TGallery => seq (gallery db)
  | TPosts => seq (posts db)
  | TAppointments => seq (appointments db)
  | TContacts => seq (contacts db)
  end.

Definition stamps_of (k : store) (db : Db) : list (Z * Z) :=
  match k with
  | TUsers => (λ r, (User.id r, User.created_at r)) <$> rows (users db)
  | TServices =>
      (λ r, (Service.id r, Service.created_at r)) <$> rows (services db)
  | TTeam => (λ r, (Team.id r, Team.created_at r)) <$> rows (team db)
  | TTestimonials =>
      (λ r, (Testimonial.id r, Testimonial.created_at r))
        <$> rows (testimonials db)
  | TGallery =>
      (λ r, (Gallery.id r, Gallery.created_at r)) <$> rows (gallery db)
  | TPosts => (λ r, (Post.id r, Post.created_at r)) <$> rows (posts db)
  | TAppointments =>
      (λ r, (Appointment.id r, Appointment.created_at r))
        <$> rows (appointments db)
  | TContacts =>
      (λ r, (Contact.id r, Contact.created_at r)) <$> rows (contacts db)
  end.

Definition same_table (k : store) (db db' : Db) : Prop :=
  match k with
  | TUsers => users db' = users db
  | TServices => services db' = services db
  | TTeam => team db' = team db
  | TTestimonials => testimonials db' = testimonials db
  | TGallery => gallery db' = gallery db
  | TPosts => posts db' = posts db
  | TAppointments => appointments db' = appointments db
  | TContacts => contacts db' = contacts db
  end.

(** Ids are unique, positive and not above the sequence counter. *)
Definition keyed_table {R} `{Row R} (t : table R) : Prop :=
  NoDup (rowid <$> rows t) ∧ 0 ≤ seq t
  ∧ Forall (λ r, 0 < rowid r ≤ seq t) (rows t).

Definition keyed (db : Db) : Prop :=
  keyed_table (users db) ∧ keyed_table (services db) ∧ keyed_table (team db)
  ∧ keyed_table (testimonials db) ∧ keyed_table (gallery db)
  ∧ keyed_table (posts db) ∧ keyed_table (appointments db)
  ∧ keyed_table (contacts db).

(** The value ranges the schemas let through. *)
Definition is_flag (z : Z) : Prop := z = 0 ∨ z = 1.

Definition tidy (db : Db) : Prop :=
  Forall (λ r, 0 ≤ Service.price_cents r ∧ is_flag (Service.active r))
    (rows (services db))
  ∧ Forall (λ r, is_flag (Team.active r)) (rows (team db))
  ∧ Forall (λ r, 1 ≤ Testimonial.rating r ≤ 5
                 ∧ is_flag (Testimonial.active r))
      (rows (testimonials db))
  ∧ Forall (λ r, is_flag (Gallery.active r)) (rows (gallery db))
  ∧ Forall (λ r, is_flag (Post.published r)) (rows (posts db))
  ∧ Forall (λ r, Appointment.status r
                 ∈ ["pending"; "confirmed"; "canceled"])
      (rows (appointments db)).

(** The [id] a response carries. *)
Definition response_id (res : Response) : option jvalue :=
  match sent res with
  | Json v => json_id v
  | _ => None
  end.

(** What the appointment handler stores for an optional text field of the
    body: the string when it is a non-empty string, NULL otherwise. *)
Definition stored_text (v : option jvalue) : option string :=
  match v with
  | Some (JStr s) => if decide (s = "") then None else Some s
  | _ => None
  end.

(** The admin collection that lists the table a creating route writes. *)
Definition listed_by (r : Route) : Route :=
  match r with
  | PostAppointments => GetAdminAppointments
  | PostContact => GetAdminContacts
  | PostAdmin e => GetAdmin e
  | _ => r
  end.

(** The routes whose statement is a DELETE, and the admin collection
    that lists the table each one deletes from. *)
Definition deletes (r : Route) : bool :=
  match r with
  | DeleteAdmin _ | DeleteAdminAppointments | DeleteAdminContacts => true
  | _ => false
  end.

Definition collection_of (r : Route) : collection :=
  match r with
  | DeleteAdmin e | PostAdmin e | PutAdmin e | GetAdmin e => AdminOf e
  | DeleteAdminContacts | PostContact | GetAdminContacts => AdminContacts
  | _ => AdminAppointments
  end.

(** The names of the fields a route's schema declares. *)
Definition schema_fields (r : Route) : list string :=
  match schema_of r with
  | Some (existT _ s) => Zod.field_names s
  | None => []
  end.

(** The same request with another body. *)
Definition with_body (req : Request) (b : option jvalue) : Request :=
  {| authorization := authorization req; params_id := params_id req;
     body := b; user := user req |}.

(** The life of the process: a boot runs [seedIfEmpty] and
    [ensureAdminUser] on the store [migrate] found, a call serves one
    request. *)
Inductive event :=
  | Boot (now entropy : Z)
  | Call (r : Route) (req : Request) (now : Z).

Definition step (env : Env) (db : Db) (ev : event) : Db :=
  match ev with
  | Boot now entropy => startup env now entropy db
  | Call r req now => snd (app env r req now db)
  end.

Definition run (env : Env) (evs : list event) (db : Db) : Db :=
  foldl (step env) db evs.

(** Every account is the configured administrator. *)
Definition admin_rows (env : Env) (db : Db) : Prop :=
  Forall (λ u, Some (User.email u) = ADMIN_EMAIL env
               ∧ User.role u = "admin")
    (rows (users db)).

End Invariants.

(** * Properties *)

Section Properties.
Context `{Platform}.

Import Zod.

(** ** SQL statements *)

Lemma filter_none {A} (P : A → Prop) `{∀ x, Decision (P x)} (l : list A) :
  (∀ x, x ∈ l → ¬ P x) → filter P l = [].
Proof.
  intros Hno. induction l as [|a l IH]; [done|].
  rewrite filter_cons_False; [|apply Hno; left].
  apply IH. intros x Hx. apply Hno. by right.
Qed.

Section sql.
Context {R : Type} `{Row R}.

Lemma filter_no_match (p : string) (l : list R) :
  (∀ r, r ∈ l → ¬ id_is p r) → filter (id_is p) l = [].
Proof. apply filter_none. Qed.

Lemma update_by_id_no_match (t : table R) p set :
  (∀ r, r ∈ rows t → ¬ id_is p r) →
  update_by_id t p set = (t, Info 0 0).
Proof.
  intros Hno. unfold update_by_id. rewrite filter_no_match by done.
  destruct t as [l s]. simpl in *. do 2 f_equal.
  induction l as [|r l IH]; [done|]. rewrite fmap_cons.
  rewrite decide_False by (apply Hno; left).
  f_equal. apply IH. intros r' Hr'. apply Hno. by right.
Qed.

Lemma delete_by_id_no_match (t : table R) p :
  (∀ r, r ∈ rows t → ¬ id_is p r) →
  delete_by_id t p = (t, Info 0 0).
Proof.
  intros Hno. unfold delete_by_id. rewrite filter_no_match by done.
  destruct t as [l s]. simpl in *. do 2 f_equal.
  induction l as [|r l IH]; [done|].
  rewrite filter_cons_True by (apply Hno; left).
  f_equal. apply IH. intros r' Hr'. apply Hno. by right.
Qed.

Lemma no_match_of_ids (l : list R) p :
  (∀ i, i ∈ rowid <$> l → sqlite_numeric p ≠ Some i) →
  ∀ r, r ∈ l → ¬ id_is p r.
Proof.
  intros Hno r Hr Hid. apply (Hno (rowid r)); [|done].
  by apply list_elem_of_fmap_2.
Qed.

End sql.

(** ** zod: a failed parse carries at least one issue *)

Local Ltac inl_one :=
  let Hq := fresh in
  intros Hq; first [discriminate Hq | injection Hq as <-; discriminate].

Lemma zparse_inl_nonempty {A} (t : ztype A) v cs :
  zparse t v = inl cs → cs ≠ [].
Proof.
  revert v cs.
  induction t as [cs'|cs'| |values|A t IH|A t IH]; intros v cs; simpl.
  - destruct v as [[]|]; try inl_one.
    destruct (string_issues cs' s); inl_one.
  - destruct v as [[]|]; try inl_one.
    destruct (int_issues cs' n); inl_one.
  - destruct v as [[]|]; inl_one.
  - destruct v as [[]|]; try inl_one.
    case_bool_decide; inl_one.
  - destruct v as [v|]; [|inl_one].
    destruct (zparse t (Some v)) eqn:Hp; [|inl_one].
    intros [= <-]. by eapply IH.
  - destruct v as [[]|]; try inl_one;
      (destruct (zparse t _) eqn:Hp; [|inl_one];
       intros [= <-]; by eapply IH).
Qed.

Lemma parse_shape_inl_nonempty {A} (s : zshape A) o issues :
  parse_shape s o = inl issues → issues ≠ [].
Proof.
  revert issues. induction s as [|A B name t rest IH]; intros issues; simpl.
  - discriminate.
  - destruct (zparse t (obj_get name o)) as [cs|a] eqn:Ht;
      destruct (parse_shape rest o) as [errs|b] eqn:Hr.
    + intros [= <-]. apply zparse_inl_nonempty in Ht.
      destruct cs; [done|discriminate].
    + intros [= <-]. apply zparse_inl_nonempty in Ht.
      destruct cs; [done|discriminate].
    + intros [= <-]. by apply IH.
    + discriminate.
Qed.

Lemma safeParse_inl_nonempty {A} (s : zshape A) b issues :
  safeParse s b = inl issues → issues ≠ [].
Proof.
  unfold safeParse. destruct b as [[]|]; try (intros [= <-]; discriminate).
  apply parse_shape_inl_nonempty.
Qed.

(** ** The [/admin] gate *)

Lemma bearer_token_prefixed token : bearer_token ("Bearer " +:+ token) = Some token.
Proof.
  unfold bearer_token, startsWith. simpl.
  destruct token; reflexivity.
Qed.

Lemma prefix_slice p s :
  String.prefix p s = true → s = p +:+ slice (String.length p) s.
Proof.
  revert s. induction p as [|c p IH]; intros s Hp; [done|].
  destruct s as [|c' s]; [done|]. simpl in *.
  destruct (ascii_dec c c') as [->|]; [|done].
  change (String c' s = String c' (p +:+ slice (String.length p) s)).
  f_equal. by apply IH.
Qed.

Lemma bearer_token_some header token :
  bearer_token header = Some token → header = "Bearer " +:+ token.
Proof.
  unfold bearer_token, startsWith. intros Hb.
  destruct (String.prefix "Bearer " header) eqn:Hp; [|discriminate].
  injection Hb as <-. by apply prefix_slice in Hp.
Qed.

Lemma is_admin_string_spec v :
  is_admin_string v = true ↔ v = Some (JStr "admin").
Proof.
  destruct v as [[]|]; simpl; try (split; [discriminate|congruence]).
  rewrite bool_decide_eq_true. split; congruence.
Qed.

Lemma ensureAdmin_forbidden req :
  role_of (user req) ≠ Some (JStr "admin") →
  ensureAdmin req = Respond (error_json 403 "forbidden").
Proof.
  intros Hrole. unfold ensureAdmin.
  destruct (is_admin_string (role_of (user req))) eqn:Ha; [|done].
  by apply is_admin_string_spec in Ha.
Qed.

Lemma ensureAdmin_next req :
  role_of (user req) = Some (JStr "admin") → ensureAdmin req = Next req.
Proof.
  intros Hrole. unfold ensureAdmin.
  by apply is_admin_string_spec in Hrole as ->.
Qed.

(** C1. On every route under [/admin]: a request whose Authorization
    header carries no bearer token (no header, a header that does not
    start with "Bearer ", or an empty token) is answered 401
    [missing_token]; a token that [jwt.verify] rejects is answered 401
    [invalid_token]; a verified token whose role claim is not the string
    "admin" is answered 403 [forbidden]; none of these touches the store;
    and [ensureAdmin] runs only once [authMiddleware] has verified a
    token. *)
Theorem admin_gate_responses env r req now db :
  under_admin r = true →
  let header := default "" (authorization req) in
  (authorization req = None ∨ startsWith header "Bearer " = false
     ∨ header = "Bearer " →
   app env r req now db = (error_json 401 "missing_token", db))
  ∧ (∀ token, header = "Bearer " +:+ token → token ≠ "" →
       jwt_verify (JWT_SECRET env) token now = None →
       app env r req now db = (error_json 401 "invalid_token", db))
  ∧ (∀ token claims, header = "Bearer " +:+ token → token ≠ "" →
       jwt_verify (JWT_SECRET env) token now = Some claims →
       role_of (Some claims) ≠ Some (JStr "admin") →
       app env r req now db = (error_json 403 "forbidden", db))
  ∧ ("ensureAdmin" ∈ fst (admin_gate env now req) →
       ∃ token claims, header = "Bearer " +:+ token ∧ token ≠ ""
         ∧ jwt_verify (JWT_SECRET env) token now = Some claims).
Proof.
  intros Hr header. unfold app. rewrite Hr.
  unfold admin_gate, run_stack, authMiddleware. fold header.
  repeat split.
  - intros Hno.
    assert (bearer_token header = None ∨ bearer_token header = Some "")
      as [-> | ->]; [|done..].
    destruct Hno as [Hnone | [Hpre | ->]].
    + left. unfold header. by rewrite Hnone.
    + left. unfold bearer_token. by rewrite Hpre.
    + by right.
  - intros token -> Hne Hv. rewrite bearer_token_prefixed.
    destruct token; [done|]. by rewrite Hv.
  - intros token claims -> Hne Hv Hrole. rewrite bearer_token_prefixed.
    destruct token; [done|]. rewrite Hv.
    by rewrite ensureAdmin_forbidden.
  - destruct (bearer_token header) as [token|] eqn:Hb.
    + apply bearer_token_some in Hb.
      destruct token as [|c token].
      { simpl. rewrite list_elem_of_singleton. discriminate. }
      destruct (jwt_verify (JWT_SECRET env) (String c token) now)
        as [claims|] eqn:Hv.
      * intros _. by exists (String c token), claims.
      * simpl. rewrite list_elem_of_singleton. discriminate.
    + simpl. rewrite list_elem_of_singleton. discriminate.
Qed.

Lemma gate_cases env now req :
  (∃ res, snd (admin_gate env now req) = Respond res
          ∧ (status res = 401 ∨ status res = 403))
  ∨ (∃ req', snd (admin_gate env now req) = Next req'
             ∧ body req' = body req ∧ params_id req' = params_id req).
Proof.
  unfold admin_gate, run_stack, authMiddleware.
  destruct (bearer_token _) as [[|c token]|];
    [left; eexists; split; [done|by left]| |
     left; eexists; split; [done|by left]].
  destruct (jwt_verify _ _ _) as [claims|];
    [|left; eexists; split; [done|by left]].
  unfold ensureAdmin.
  destruct (is_admin_string _); simpl.
  - right. by eexists.
  - left. eexists. split; [done|by right].
Qed.

Lemma authorized_gate env now req :
  authorized env now req →
  ∃ req', snd (admin_gate env now req) = Next req'
          ∧ body req' = body req ∧ params_id req' = params_id req.
Proof.
  intros (token & claims & Hauth & Hne & Hv & Hrole).
  unfold admin_gate, run_stack, authMiddleware.
  rewrite Hauth. simpl default. rewrite bearer_token_prefixed.
  destruct token; [done|]. rewrite Hv.
  rewrite ensureAdmin_next by done. by eexists.
Qed.

(** ** Writes addressed by id *)

Lemma inl_issues_of r {A} (s : zshape A) b issues :
  schema_of r = Some (existT A s) →
  safeParse s b = inl issues → issues_of r b = issues.
Proof. intros Hs Hp. unfold issues_of. by rewrite Hs, Hp. Qed.

Lemma db_eta db :
  {| users := users db; services := services db; team := team db;
     testimonials := testimonials db; gallery := gallery db;
     posts := posts db; appointments := appointments db;
     contacts := contacts db |} = db.
Proof. by destruct db. Qed.

(** Take a parsed body apart into its fields. *)
Local Ltac destruct_data :=
  repeat match goal with
         | d : (_ * _)%type |- _ => destruct d
         | u : unit |- _ => destruct u
         end.

(** A statement whose [WHERE id = ?] matches nothing. *)
Lemma handler_missing_id env r req now db :
  by_id r = true →
  (∀ i, i ∈ target_ids r db → sqlite_numeric (params_id req) ≠ Some i) →
  snd (handler env r req now db) = db
  ∧ (status (fst (handler env r req now db)) = 400
     ∨ fst (handler env r req now db) = ok_json (JObj [(counter r, JInt 0)]))
  ∧ (accepted r (body req) →
     fst (handler env r req now db) = ok_json (JObj [(counter r, JInt 0)])).
Proof.
  intros Hr Hno.
  destruct r as [| | | | | |e|e|e| | | | | |]; try discriminate Hr;
    try destruct e; simpl in Hno; simpl handler;
    pose proof (no_match_of_ids _ _ Hno) as Hno';
    unfold put_admin_services, put_admin_team, put_admin_testimonials,
      put_admin_gallery, put_admin_posts, put_admin_appointments_status;
    lazymatch goal with
    | |- context [safeParse ?s ?b] =>
        unfold accepted;
        destruct (safeParse s b) as [issues|d] eqn:Hp;
        [ erewrite inl_issues_of by (done || exact Hp);
          split; [done|]; split; [by left|];
          intros ->; by apply safeParse_inl_nonempty in Hp
        | destruct_data;
          rewrite update_by_id_no_match by done;
          unfold set_services, set_team, set_testimonials, set_gallery,
            set_posts, set_appointments, set_contacts;
          rewrite db_eta; split; [done|]; split; [by right|done] ]
    | |- _ =>
        unfold delete_admin_services, delete_admin_team,
          delete_admin_testimonials, delete_admin_gallery,
          delete_admin_posts, delete_admin_appointments,
          delete_admin_contacts;
        rewrite delete_by_id_no_match by done;
        unfold set_services, set_team, set_testimonials, set_gallery,
          set_posts, set_appointments, set_contacts;
        rewrite db_eta; split; [done|]; split; [by right|done]
    end.
Qed.

Lemma by_id_under_admin r : by_id r = true → under_admin r = true.
Proof. by destruct r. Qed.

(** C5. On every admin PUT and DELETE route, when the [:id] parameter
    matches no row of the addressed table the store is left as it was and
    the answer is never 404; a request that passes the admin gate with a
    body the route's schema accepts (DELETE routes validate nothing) is
    answered 200 with a count of zero, [{updated: 0}] or [{deleted: 0}]. *)
Theorem missing_id_is_not_an_error env r req now db :
  by_id r = true →
  (∀ i, i ∈ target_ids r db → sqlite_numeric (params_id req) ≠ Some i) →
  snd (app env r req now db) = db
  ∧ status (fst (app env r req now db)) ≠ 404
  ∧ (authorized env now req → accepted r (body req) →
     fst (app env r req now db) = ok_json (JObj [(counter r, JInt 0)])).
Proof.
  intros Hr Hno. unfold app. rewrite (by_id_under_admin _ Hr).
  destruct (gate_cases env now req)
    as [(res & Hg & Hst) | (req' & Hg & Hb & Hp)].
  - rewrite Hg. simpl. repeat split.
    + destruct Hst as [-> | ->]; discriminate.
    + intros (req' & Hg' & _)%authorized_gate. congruence.
  - rewrite Hg. rewrite <- Hp in Hno.
    destruct (handler_missing_id env r req' now db Hr Hno)
      as (Hdb & Hst & Hok).
    repeat split; [done| |].
    + destruct Hst as [-> | ->]; discriminate.
    + intros _ Hacc. apply Hok. by rewrite Hb.
Qed.

(** ** Accepted bodies *)

Lemma accepted_inr r {A} (s : zshape A) b :
  schema_of r = Some (existT A s) → accepted r b → ∃ d, safeParse s b = inr d.
Proof.
  intros Hs. unfold accepted, issues_of. rewrite Hs.
  destruct (safeParse s b) as [issues|d] eqn:Hp; [|by eexists].
  intros ->. by apply safeParse_inl_nonempty in Hp.
Qed.

Lemma parse_shape_field {A B} name (t : ztype A) (rest : zshape B) o a b :
  parse_shape (SField name t rest) o = inr (a, b) →
  zparse t (obj_get name o) = inr a ∧ parse_shape rest o = inr b.
Proof.
  simpl. destruct (zparse t (obj_get name o)), (parse_shape rest o);
    try discriminate. by intros [= -> ->].
Qed.

(** Expose the shape behind a parse of an object body. *)
Local Ltac open_parse Hp :=
  unfold safeParse in Hp; cbv beta iota in Hp;
  unfold LoginSchema, AppointmentSchema, ContactSchema, ServiceSchema,
    TeamSchema, TestimonialSchema, GallerySchema, PostSchema, StatusSchema
    in Hp.

(** Read a successful parse field by field. *)
Local Ltac parse_fields Hp :=
  repeat (let Hf := fresh "Hf" in
          apply parse_shape_field in Hp as [Hf Hp]).

(** ** The omitted visibility flag *)

Lemma zparse_optional_absent {A} (t : ztype A) a :
  zparse (ZOptional t) None = inr a → a = None.
Proof. simpl. by intros [= <-]. Qed.

(** C10. An admin PUT with an accepted body that omits the visibility
    flag overwrites the flag of the addressed row with the handler's
    fallback, whatever it was before: 1 (true) for [active] on services,
    team, testimonials and gallery, 0 (false) for [published] on posts.
    Rows with another id keep their flag. *)
Theorem omitted_flag_is_reset env e req now db o :
  authorized env now req →
  body req = Some (JObj o) →
  accepted (PutAdmin e) (body req) →
  obj_get (flag_name e) o = None →
  flags_of e (snd (app env (PutAdmin e) req now db))
  = (λ '(i, a),
       (i, if decide (sqlite_numeric (params_id req) = Some i)
           then fallback_flag e else a)) <$> flags_of e db.
Proof.
  intros (req' & Hg & Hb & Hp)%authorized_gate Hbody Hacc Hflag.
  unfold app. simpl under_admin. cbv iota. rewrite Hg.
  rewrite <- Hb in Hbody, Hacc. rewrite <- Hp. clear Hg Hb Hp req.
  destruct e; simpl handler; simpl in Hflag;
    unfold put_admin_services, put_admin_team, put_admin_testimonials,
      put_admin_gallery, put_admin_posts;
    (eapply accepted_inr in Hacc as [d Hd]; [|reflexivity]);
    rewrite Hd; rewrite Hbody in Hd; open_parse Hd;
    destruct_data; parse_fields Hd;
    repeat match goal with
           | Hf : zparse _ (obj_get ?n o) = inr _ |- _ =>
               rewrite Hflag in Hf; apply zparse_optional_absent in Hf;
               subst
           end;
    simpl; rewrite <- !list_fmap_compose; apply list_fmap_ext;
    intros ? r _; simpl; unfold id_is, rowid;
    repeat case_decide; try done; congruence.
Qed.

(** ** Appointment status *)

Lemma zparse_enum values s :
  s ∈ values → zparse (ZEnum values) (Some (JStr s)) = inr s.
Proof. intros Hs. simpl. by rewrite bool_decide_eq_true_2. Qed.

(** C8. An authorized PUT on an appointment's status with any of the
    three values is answered 200 with the number of addressed rows,
    whatever their current status; afterwards every appointment row
    stands where it stood with all columns but [status] as before, the
    addressed rows carry the new status and the others their old one, and
    no other table has changed. *)
Theorem status_update_frame env req now db o s :
  authorized env now req →
  body req = Some (JObj o) →
  obj_get "status" o = Some (JStr s) →
  s ∈ ["pending"; "confirmed"; "canceled"] →
  let res := fst (app env PutAdminAppointmentsStatus req now db) in
  let db' := snd (app env PutAdminAppointmentsStatus req now db) in
  res = ok_json (JObj [("updated",
          JInt (Z.of_nat (length (filter (id_is (params_id req))
                                    (rows (appointments db))))))])
  ∧ Forall2 (λ r r',
       same_but_status r r'
       ∧ Appointment.status r'
         = if decide (id_is (params_id req) r) then s
           else Appointment.status r)
      (rows (appointments db)) (rows (appointments db'))
  ∧ seq (appointments db') = seq (appointments db)
  ∧ set_appointments db' (appointments db) = db.
Proof.
  intros (req' & Hg & Hb & Hp)%authorized_gate Hbody Hstatus Hs.
  unfold app. simpl under_admin. cbv iota. rewrite Hg.
  rewrite <- Hb in Hbody. rewrite <- Hp. clear Hg Hb Hp req.
  simpl handler. unfold put_admin_appointments_status.
  assert (safeParse StatusSchema (Some (JObj o)) = inr (s, ())) as Hparse.
  { unfold safeParse, StatusSchema. cbn [parse_shape].
    by rewrite Hstatus, zparse_enum. }
  rewrite Hbody, Hparse. simpl.
  repeat split.
  - apply Forall2_fmap_r, Forall_Forall2_diag, Forall_forall.
    intros r _. simpl. unfold same_but_status. by case_decide.
  - unfold set_appointments. simpl. apply db_eta.
Qed.

(** ** Appointment requests *)

Lemma zparse_string_inr cs v s :
  zparse (ZString cs) v = inr s → v = Some (JStr s) ∧ string_issues cs s = [].
Proof.
  simpl. destruct v as [[]|]; try discriminate.
  destruct (string_issues cs s0) eqn:Hi; [|discriminate].
  by intros [= ->].
Qed.

Lemma string_issues_min n s :
  string_issues [Min n] s = [] → (n ≤ js_length s)%nat.
Proof.
  unfold string_issues. simpl.
  destruct (js_length s <? n)%nat eqn:Hlt; [discriminate|].
  intros _. by apply Nat.ltb_ge.
Qed.

Lemma string_issues_email s : string_issues [Email] s = [] → zod_email s = true.
Proof. unfold string_issues. simpl. by destruct (zod_email s). Qed.

Lemma zparse_optional_text v x :
  zparse (ZNullable (ZOptional (ZString []))) v = inr x → optional_text v.
Proof.
  unfold optional_text. destruct v as [[]|]; simpl; try discriminate; eauto.
Qed.

Section sql_insert.
Context {R : Type} `{Row R}.

Lemma max_rowid_ge (t : table R) r : r ∈ rows t → rowid r ≤ max_rowid t.
Proof.
  unfold max_rowid. induction (rows t) as [|r' l IH]; [by inversion 1|].
  rewrite elem_of_cons, fmap_cons. cbn [foldr]. intros [-> | Hr]; [lia|].
  specialize (IH Hr). lia.
Qed.

Lemma next_rowid_fresh (t : table R) :
  Forall (λ r, rowid r < next_rowid t) (rows t).
Proof.
  apply Forall_forall. intros r Hr%max_rowid_ge. unfold next_rowid. lia.
Qed.

End sql_insert.

(** C2. A body the appointment schema accepts is an object whose [name]
    is a string of at least 2 characters, whose [phone] is a string of at
    least 6, whose [email] passes the e-mail check and whose [service],
    [datetime] and [notes] are each absent, [null] or a string. For such
    a body POST /appointments appends exactly one row to the appointments
    table, with status "pending", the server's clock as [created_at] and
    an id above every existing one, leaves the other tables alone, and
    answers 201 with that id and status "pending". *)
Theorem appointment_created env req now db data :
  safeParse AppointmentSchema (body req) = inr data →
  ∃ o name phone email row,
    body req = Some (JObj o)
    ∧ (obj_get "name" o = Some (JStr name) ∧ (2 ≤ js_length name)%nat)
    ∧ (obj_get "phone" o = Some (JStr phone) ∧ (6 ≤ js_length phone)%nat)
    ∧ (obj_get "email" o = Some (JStr email) ∧ zod_email email = true)
    ∧ optional_text (obj_get "service" o)
    ∧ optional_text (obj_get "datetime" o)
    ∧ optional_text (obj_get "notes" o)
    ∧ app env PostAppointments req now db
      = (Res 201 (Json (JObj [("id", JInt (Appointment.id row));
                              ("status", JStr "pending")])),
         set_appointments db
           (Table (rows (appointments db) ++ [row]) (Appointment.id row)))
    ∧ Appointment.status row = "pending"
    ∧ Appointment.created_at row = now
    ∧ Appointment.name row = name
    ∧ Appointment.phone row = phone
    ∧ Appointment.email row = email
    ∧ Forall (λ r, Appointment.id r < Appointment.id row)
        (rows (appointments db)).
Proof.
  intros Hp. unfold app. simpl. unfold post_appointments. rewrite Hp.
  destruct (body req) as [[| | | | |o]|] eqn:Hbody; try discriminate Hp.
  open_parse Hp. destruct_data. parse_fields Hp.
  apply zparse_string_inr in Hf as [Hname Hn%string_issues_min].
  apply zparse_string_inr in Hf0 as [Hphone Hph%string_issues_min].
  apply zparse_string_inr in Hf1 as [Hemail He%string_issues_email].
  apply zparse_optional_text in Hf2, Hf3, Hf4.
  exists o, s, s0, s1,
    (Appointment.Build (next_rowid (appointments db)) s s0 s1
       (or_null (mjoin o0)) (or_null (mjoin o1)) (or_null (mjoin o2))
       "pending" now).
  simpl. repeat split; try done.
  apply (next_rowid_fresh (appointments db)).
Qed.

(** ** Login *)

Lemma NoDup_fmap_eq {A B} (f : A → B) (l : list A) x y :
  NoDup (f <$> l) → x ∈ l → y ∈ l → f x = f y → x = y.
Proof.
  induction l as [|a l IH]; [by inversion 2|].
  rewrite fmap_cons, NoDup_cons, !elem_of_cons.
  intros [Hnot Hnd] [-> | Hx] [-> | Hy] Hf; try done.
  - destruct Hnot. rewrite Hf. by apply list_elem_of_fmap_2.
  - destruct Hnot. rewrite <- Hf. by apply list_elem_of_fmap_2.
  - by apply IH.
Qed.

Lemma select_get_some {R} (t : table R) (P : R → Prop)
    `{∀ r, Decision (P r)} r :
  select_get t P = Some r → r ∈ rows t ∧ P r.
Proof.
  unfold select_get. intros Hh%head_Some_elem_of.
  by apply list_elem_of_filter in Hh as [? ?].
Qed.

Lemma select_get_none {R} (t : table R) (P : R → Prop)
    `{∀ r, Decision (P r)} :
  select_get t P = None → ∀ r, r ∈ rows t → ¬ P r.
Proof.
  unfold select_get. intros Hh%head_None r Hr HP.
  assert (r ∈ filter P (rows t)) as Hin by by apply list_elem_of_filter.
  rewrite Hh in Hin. by inversion Hin.
Qed.


(** ** Boot sequence *)

Lemma seedIfEmpty_users now db : users (seedIfEmpty now db) = users db.
Proof. unfold seedIfEmpty. by case_decide. Qed.

Lemma seedIfEmpty_seeded now db :
  rows (services db) = [] →
  let i := Z.max (seq (services db)) 0 in
  rows (services (seedIfEmpty now db))
  = [Service.Build (i + 1) "Corte Clássico"
       (Some "Tesoura e máquina, finalização.") 4000 1 now;
     Service.Build (i + 2) "Barba Modelada"
       (Some "Desenho e hidratação.") 3000 1 now;
     Service.Build (i + 3) "Corte + Barba"
       (Some "Combo especial.") 7000 1 now].
Proof.
  intros Hrows i. unfold seedIfEmpty. rewrite Hrows.
  rewrite decide_True by done.
  unfold insert, next_rowid, max_rowid. rewrite Hrows.
  unfold rowid, service_row.
  cbn [set_services services fst rows seq Datatypes.app fmap list_fmap foldr
       Service.id].
  fold i.
  do 2 f_equal; [f_equal; lia | f_equal; f_equal; lia].
Qed.

Lemma seedIfEmpty_nonempty now db :
  rows (services (seedIfEmpty now db)) ≠ [].
Proof.
  destruct (rows (services db)) as [|r l] eqn:Hrows.
  - by rewrite seedIfEmpty_seeded.
  - unfold seedIfEmpty. rewrite Hrows.
    rewrite decide_False by done. by rewrite Hrows.
Qed.

Lemma seedIfEmpty_noop now db :
  rows (services db) ≠ [] → seedIfEmpty now db = db.
Proof.
  intros Hne. unfold seedIfEmpty.
  destruct (rows (services db)); [done|]. by rewrite decide_False.
Qed.

Lemma ensureAdminUser_services env now e db :
  services (ensureAdminUser env now e db) = services db.
Proof.
  unfold ensureAdminUser.
  destruct (unset _ || unset _); [done|]. by destruct (select_get _ _).
Qed.

Lemma select_get_inserted (t : table User.t) e mk :
  User.email (mk (next_rowid t)) = e →
  is_Some (select_get (fst (insert t mk)) (λ u, User.email u = e)).
Proof.
  intros He. unfold select_get, insert. simpl.
  rewrite filter_app, filter_cons_True, filter_nil by done.
  destruct (filter _ (rows t)); by eexists.
Qed.

Lemma ensureAdminUser_idempotent env now1 e1 now2 e2 db :
  ensureAdminUser env now2 e2 (ensureAdminUser env now1 e1 db)
  = ensureAdminUser env now1 e1 db.
Proof.
  unfold ensureAdminUser.
  destruct (unset _ || unset _) eqn:Hset; [done|].
  destruct (select_get (users db) _) as [u|] eqn:Hget.
  - by rewrite Hget.
  - cbn [users set_users].
    by edestruct select_get_inserted as [u ->].
Qed.

Lemma filter_unique {A B} (f : A → B) `{EqDecision B} (l : list A) x :
  NoDup (f <$> l) → x ∈ l →
  length (filter (λ y, f y = f x) l) = 1%nat.
Proof.
  induction l as [|a l IH]; [by inversion 2|].
  rewrite fmap_cons, NoDup_cons, elem_of_cons.
  intros [Hnot Hnd] [-> | Hx].
  - rewrite filter_cons_True by done. simpl. f_equal.
    apply length_zero_iff_nil, filter_none.
    intros y Hy Hf. destruct Hnot. rewrite <- Hf.
    by apply list_elem_of_fmap_2.
  - rewrite filter_cons_False; [by apply IH|].
    intros Hf. destruct Hnot. rewrite Hf. by apply list_elem_of_fmap_2.
Qed.

Lemma ensureAdminUser_one env now e db email :
  ADMIN_EMAIL env = Some email → email ≠ "" →
  unset (ADMIN_PASSWORD env) = false →
  NoDup (User.email <$> rows (users db)) →
  length (filter (λ u, User.email u = email)
            (rows (users (ensureAdminUser env now e db)))) = 1%nat.
Proof.
  intros Hemail Hne Hpwd Hnd. unfold ensureAdminUser.
  rewrite Hemail, Hpwd. destruct email; [done|]. simpl.
  destruct (select_get (users db) _) as [u|] eqn:Hget.
  - apply select_get_some in Hget as [Hu <-].
    by apply (filter_unique User.email).
  - unfold insert. simpl.
    rewrite filter_app, filter_cons_True, filter_nil by done.
    rewrite length_app. simpl.
    assert (filter (λ u, User.email u = String a email) (rows (users db)) = [])
      as ->; [|done].
    apply filter_none.
    intros r Hr. by apply (select_get_none _ _ Hget).
Qed.

(** C6. Running the boot sequence ([seedIfEmpty], then
    [ensureAdminUser]) a second time, at any later clock, leaves the
    database exactly as the first run left it. When the admin e-mail and
    password are configured and e-mail addresses were unique, exactly one
    user row carries that e-mail afterwards; when the services table was
    empty before the first run, it holds the three seeded services, as
    the first run inserted them. *)
Theorem startup_idempotent env now1 e1 now2 e2 db :
  let db1 := startup env now1 e1 db in
  let db2 := startup env now2 e2 db1 in
  db2 = db1
  ∧ (∀ email,
       ADMIN_EMAIL env = Some email → email ≠ "" →
       unset (ADMIN_PASSWORD env) = false →
       NoDup (User.email <$> rows (users db)) →
       length (filter (λ u, User.email u = email) (rows (users db2))) = 1%nat)
  ∧ (rows (services db) = [] →
     let i := Z.max (seq (services db)) 0 in
     rows (services db2)
     = [Service.Build (i + 1) "Corte Clássico"
          (Some "Tesoura e máquina, finalização.") 4000 1 now1;
        Service.Build (i + 2) "Barba Modelada"
          (Some "Desenho e hidratação.") 3000 1 now1;
        Service.Build (i + 3) "Corte + Barba"
          (Some "Combo especial.") 7000 1 now1]).
Proof.
  intros db1 db2.
  assert (db2 = db1) as Hidem.
  { unfold db2, startup. rewrite seedIfEmpty_noop.
    - apply ensureAdminUser_idempotent.
    - unfold db1, startup. rewrite ensureAdminUser_services.
      apply seedIfEmpty_nonempty. }
  rewrite Hidem. unfold db1, startup. repeat split.
  - intros email Hemail Hne Hpwd Hnd.
    apply ensureAdminUser_one; try done. by rewrite seedIfEmpty_users.
  - intros Hrows. rewrite ensureAdminUser_services.
    by apply seedIfEmpty_seeded.
Qed.

(** ** Validation failures *)

Lemma flatten_snoc issues i :
  flatten (issues ++ [i]) = flatten_step (flatten issues) i.
Proof. unfold flatten. by rewrite foldl_app. Qed.

Lemma flatten_spec issues :
  formErrors (flatten issues) = form_codes issues
  ∧ one_entry_per_invalid_field (fieldErrors (flatten issues))
      (λ f, codes_at f issues).
Proof.
  unfold one_entry_per_invalid_field, form_codes, codes_at.
  induction issues as [|[p c] issues [IHform IHfield]] using rev_ind.
  - split; [done|]. intros f. apply lookup_empty.
  - rewrite flatten_snoc. unfold flatten_step. simpl path. simpl code.
    destruct p as [g|]; simpl; split.
    + rewrite IHform, filter_app. rewrite filter_cons_False by done.
      by rewrite filter_nil, app_nil_r.
    + intros f. rewrite filter_app, fmap_app.
      destruct (decide (g = f)) as [->|Hne].
      * rewrite lookup_insert_eq, IHfield.
        rewrite filter_cons_True by done. rewrite filter_nil. simpl.
        by destruct (code <$> filter (λ i, path i = Some f) issues).
      * rewrite lookup_insert_ne, IHfield by done.
        rewrite filter_cons_False by (simpl; congruence).
        by rewrite filter_nil, app_nil_r.
    + rewrite IHform, filter_app, fmap_app.
      by rewrite filter_cons_True.
    + intros f. rewrite IHfield, filter_app.
      rewrite filter_cons_False by done.
      by rewrite filter_nil, app_nil_r.
Qed.

Lemma codes_at_field name f cs :
  codes_at f (at_field name cs) = if decide (name = f) then cs else [].
Proof.
  unfold codes_at, at_field. case_decide as Hn.
  - subst f. induction cs as [|c cs IH]; [done|].
    rewrite (fmap_cons (Issue _)), filter_cons_True by done.
    rewrite fmap_cons. simpl. by f_equal.
  - induction cs as [|c cs IH]; [done|].
    rewrite (fmap_cons (Issue _)), filter_cons_False by (simpl; congruence).
    done.
Qed.

Lemma form_codes_field name cs : form_codes (at_field name cs) = [].
Proof.
  unfold form_codes, at_field. induction cs as [|c cs IH]; [done|].
  simpl. by rewrite filter_cons_False.
Qed.

Lemma codes_at_app f l k : codes_at f (l ++ k) = codes_at f l ++ codes_at f k.
Proof. unfold codes_at. by rewrite filter_app, fmap_app. Qed.

Lemma form_codes_app l k : form_codes (l ++ k) = form_codes l ++ form_codes k.
Proof. unfold form_codes. by rewrite filter_app, fmap_app. Qed.

Lemma parse_shape_valid {A} (s : zshape A) o d f :
  parse_shape s o = inr d → field_codes s o f = [].
Proof.
  revert d. induction s as [|A B name t rest IH]; intros d; [done|].
  simpl. destruct (zparse t (obj_get name o)), (parse_shape rest o);
    try discriminate.
  intros _. rewrite (IH _ eq_refl). by case_decide.
Qed.

Lemma parse_shape_issues {A} (s : zshape A) o issues :
  parse_shape s o = inl issues →
  form_codes issues = [] ∧ ∀ f, codes_at f issues = field_codes s o f.
Proof.
  revert issues. induction s as [|A B name t rest IH]; intros issues;
    [discriminate|].
  simpl. destruct (zparse t (obj_get name o)) as [cs|a],
    (parse_shape rest o) as [errs|b] eqn:Hrest; intros [= <-].
  - destruct (IH _ eq_refl) as [IHform IHfield]. split.
    + by rewrite form_codes_app, IHform, form_codes_field.
    + intros f. by rewrite codes_at_app, IHfield, codes_at_field.
  - split; [apply form_codes_field|].
    intros f. rewrite codes_at_field, (parse_shape_valid rest o b) by done.
    by rewrite app_nil_r.
  - destruct (IH _ eq_refl) as [IHform IHfield]. split; [done|].
    intros f. rewrite IHfield. by case_decide.
Qed.

(** What [flatten] reports for a rejected body. *)
Lemma rejected_flatten r b :
  match b with
  | Some (JObj o) =>
      formErrors (flatten (issues_of r b)) = []
      ∧ one_entry_per_invalid_field
          (fieldErrors (flatten (issues_of r b))) (route_field_codes r o)
  | _ =>
      rejected r b →
      formErrors (flatten (issues_of r b)) = [invalid_type]
      ∧ fieldErrors (flatten (issues_of r b)) = ∅
  end.
Proof.
  unfold rejected, issues_of, route_field_codes, one_entry_per_invalid_field.
  destruct (schema_of r) as [[A s]|].
  - destruct b as [[| | | | |o]|]; try by (intros _; split).
    simpl. destruct (parse_shape s o) as [issues|d] eqn:Hp.
    + destruct (flatten_spec issues) as [Hform Hfield].
      destruct (parse_shape_issues s o issues Hp) as [Hnone Hcodes].
      split; [congruence|]. intros f. by rewrite Hfield, Hcodes.
    + split; [done|]. intros f.
      rewrite (parse_shape_valid s o d) by done. apply lookup_empty.
  - by destruct b as [[| | | | |o]|].
Qed.

Lemma handler_rejected env r req now db :
  rejected r (body req) →
  handler env r req now db = (bad_request (issues_of r (body req)), db).
Proof.
  unfold rejected, issues_of.
  destruct r as [|e| | | |e|e|e|e| | | | | |]; try destruct e;
    simpl schema_of; cbv beta iota; try done; simpl handler;
    unfold post_auth_login, post_appointments, post_contact,
      post_admin_services, put_admin_services, post_admin_team,
      put_admin_team, post_admin_testimonials, put_admin_testimonials,
      post_admin_gallery, put_admin_gallery, post_admin_posts,
      put_admin_posts, put_admin_appointments_status;
    by destruct (safeParse _ (body req)).
Qed.

(** C9. On every route that validates a body, a body its schema rejects
    leaves the store untouched; when the request reaches the handler
    (a public route, or an admin route with an admin token) the answer is
    400 carrying [flatten] of the issues. For an object body that is a
    field-keyed map with exactly one entry for each field that raised
    issues, listing all of that field's issues, and no form-level error;
    for any other body it is a single form-level error and an empty
    map. *)
Theorem validation_failure_is_local env r req now db :
  rejected r (body req) →
  snd (app env r req now db) = db
  ∧ (under_admin r = false ∨ authorized env now req →
     fst (app env r req now db)
     = Res 400 (ValidationError (flatten (issues_of r (body req)))))
  ∧ match body req with
    | Some (JObj o) =>
        formErrors (flatten (issues_of r (body req))) = []
        ∧ one_entry_per_invalid_field
            (fieldErrors (flatten (issues_of r (body req))))
            (route_field_codes r o)
    | _ =>
        formErrors (flatten (issues_of r (body req))) = [invalid_type]
        ∧ fieldErrors (flatten (issues_of r (body req))) = ∅
    end.
Proof.
  intros Hrej. split; [|split].
  - unfold app. destruct (under_admin r).
    + destruct (gate_cases env now req)
        as [(res & -> & _) | (req' & -> & Hb & _)]; [done|].
      rewrite handler_rejected; [done|by rewrite Hb].
    + by rewrite handler_rejected.
  - unfold app. intros [-> | Hauth].
    + by rewrite handler_rejected.
    + destruct (under_admin r); [|by rewrite handler_rejected].
      apply authorized_gate in Hauth as (req' & -> & Hb & _).
      rewrite handler_rejected; by rewrite Hb.
  - pose proof (rejected_flatten r (body req)) as Hflat.
    destruct (body req) as [[]|]; auto.
Qed.

(** ** Collections *)

Section sql_select.
Context {R : Type} `{Row R}.

#[local] Instance id_le_total : Total (id_le (R:=R)).
Proof. intros a b. unfold id_le. lia. Qed.
#[local] Instance id_le_trans : Transitive (id_le (R:=R)).
Proof. intros a b c. unfold id_le. lia. Qed.
#[local] Instance id_ge_total : Total (id_ge (R:=R)).
Proof. intros a b. unfold id_ge. lia. Qed.
#[local] Instance id_ge_trans : Transitive (id_ge (R:=R)).
Proof. intros a b c. unfold id_ge. lia. Qed.

Lemma order_by_id_perm o (l : list R) : order_by_id o l ≡ₚ l.
Proof. destruct o; apply merge_sort_Permutation. Qed.

Lemma order_by_id_sorted o (l : list R) :
  StronglySorted (id_order o) (order_by_id o l).
Proof. destruct o; apply StronglySorted_merge_sort; apply _. Qed.

Lemma select_all_elem (t : table R) (cond : R → Prop)
    `{∀ r, Decision (cond r)} o limit cols v :
  v ∈ select_all t cond o limit cols → ∃ r, r ∈ rows t ∧ cond r ∧ v = cols r.
Proof.
  unfold select_all. intros (r & -> & Hr)%list_elem_of_fmap.
  exists r. assert (r ∈ order_by_id o (filter cond (rows t))) as Hs.
  { destruct limit; [by eapply subseteq_take|done]. }
  rewrite order_by_id_perm in Hs.
  by apply list_elem_of_filter in Hs as [? ?].
Qed.

Lemma select_all_shows_visible (t : table R) (visible : R → Z) cols o limit :
  (∀ r, json_id (cols r) = Some (JInt (rowid r))) →
  shows_visible (rows t) visible cols
    (select_all t (λ r, visible r = 1) o limit cols).
Proof.
  intros Hid. split.
  - intros v Hv. by apply select_all_elem in Hv.
  - intros Hnd r Hr Hhidden v (r' & Hr' & Hvis & ->)%select_all_elem.
    rewrite Hid. intros [= Heq].
    assert (r' = r) as -> by by eapply (NoDup_fmap_eq rowid).
    done.
Qed.

Lemma select_all_listing (t : table R) (cond : R → Prop)
    `{∀ r, Decision (cond r)} o limit cols :
  ∃ sel rest : list R,
    select_all t cond o limit cols = cols <$> sel
    ∧ StronglySorted (id_order o) sel
    ∧ sel ++ rest ≡ₚ filter cond (rows t)
    ∧ (∀ a b, a ∈ sel → b ∈ rest → id_order o a b)
    ∧ match limit with
      | Some n => length sel = min n (length (filter cond (rows t)))
      | None => rest = []
      end.
Proof.
  unfold select_all.
  pose proof (order_by_id_sorted o (filter cond (rows t))) as Hsorted.
  pose proof (order_by_id_perm o (filter cond (rows t))) as Hperm.
  destruct limit as [n|].
  - exists (take n (order_by_id o (filter cond (rows t)))),
           (drop n (order_by_id o (filter cond (rows t)))).
    rewrite <- (take_drop n (order_by_id o _)) in Hsorted.
    repeat split.
    + by eapply StronglySorted_app_1_l.
    + by rewrite take_drop.
    + intros a b. by eapply StronglySorted_app_1_elem_of.
    + by rewrite length_take, Hperm.
  - exists (order_by_id o (filter cond (rows t))), [].
    repeat split; try done.
    + by rewrite app_nil_r.
    + intros a b _ Hb. by inversion Hb.
Qed.

Lemma filter_all (l : list R) : filter (λ _, True) l = l.
Proof.
  induction l as [|r l IH]; [done|].
  rewrite filter_cons_True by done. by f_equal.
Qed.

(** A [SELECT], seen on (id, image) pairs. *)
Lemma select_all_pairs (t : table R) (cond : R → Prop)
    `{∀ r, Decision (cond r)} o limit cols :
  let pair r := (rowid r, cols r) in
  let rel := match o with Asc => ascending | Desc => descending end in
  ∃ sel rest : list (Z * jvalue),
    select_all t cond o limit cols = snd <$> sel
    ∧ StronglySorted rel sel
    ∧ sel ++ rest ≡ₚ pair <$> filter cond (rows t)
    ∧ (∀ a b, a ∈ sel → b ∈ rest → rel a b)
    ∧ match limit with
      | Some n => length sel = min n (length (pair <$> filter cond (rows t)))
      | None => rest = []
      end
    ∧ Forall (λ v, ∃ r, v = cols r) (snd <$> sel).
Proof.
  intros pair rel.
  destruct (select_all_listing t cond o limit cols)
    as (sel & rest & Hsel & Hsorted & Hperm & Hrest & Hlimit).
  exists (pair <$> sel), (pair <$> rest).
  assert (∀ a b, id_order o a b → rel (pair a) (pair b)) as Hrel.
  { intros a b. by destruct o. }
  repeat split.
  - by rewrite Hsel, <- list_fmap_compose.
  - by eapply StronglySorted_fmap.
  - by rewrite <- fmap_app, Hperm.
  - intros a b (ra & -> & Ha)%list_elem_of_fmap (rb & -> & Hb)%list_elem_of_fmap.
    auto.
  - destruct limit; [by rewrite !length_fmap|by rewrite Hlimit].
  - rewrite <- list_fmap_compose. apply Forall_fmap, Forall_forall.
    intros r _. by exists r.
Qed.

End sql_select.

(** C3. Every public list is answered 200 with an array in which each
    element has exactly the public columns of its entity ([password_hash]
    is none of them), is the image of a row of the entity's table whose
    [active] (for posts, [published]) flag is 1, and, ids being unique,
    never carries the id of a row whose flag is not 1; the answer is the
    same whatever the users table holds, and the store is not written. *)
Theorem public_lists_hide env e req now db :
  ∃ out,
    app env (GetPublic e) req now db = (ok_json (JArr out), db)
    ∧ (∀ v, v ∈ out →
         json_keys v = public_columns e ∧ "password_hash" ∉ json_keys v)
    ∧ public_source e db out
    ∧ ∀ u, fst (app env (GetPublic e) req now (set_users db u))
           = ok_json (JArr out).
Proof.
  unfold app. simpl under_admin. cbv iota.
  destruct e; simpl handler;
    unfold get_services, get_team, get_testimonials, get_gallery, get_posts;
    (eexists; split; [reflexivity|]); (split; [|split; [|done]]);
    try (by apply select_all_shows_visible);
    intros v Hv; apply select_all_elem in Hv as (r & ? & ? & ->);
    (split; [done|]); simpl;
    rewrite !not_elem_of_cons; repeat split; (done || apply not_elem_of_nil).
Qed.

(** C7. Every collection endpoint answers 200 with rows selected from
    its matching rows (the visible rows for a public list, every row of
    the table for an admin list) and ordered by id: ascending for the
    public services and team lists, descending (newest first) for every
    other one. The public testimonials, gallery and posts lists hold at
    most 12, 24 and 20 rows, the ones with the highest ids; every other
    list holds all its matching rows. Admin lists carry every column of
    their table. The store is not written. *)
Theorem collections_ordered_and_capped env c req now db :
  (under_admin (route_of c) = true → authorized env now req) →
  ∃ sel rest : list (Z * jvalue),
    app env (route_of c) req now db = (ok_json (JArr (snd <$> sel)), db)
    ∧ StronglySorted (if newest_first c then descending else ascending) sel
    ∧ sel ++ rest ≡ₚ matching c db
    ∧ match cap c with
      | Some n =>
          length sel = min n (length (matching c db))
          ∧ ∀ a b, a ∈ sel → b ∈ rest → descending a b
      | None => rest = []
      end
    ∧ Forall (λ v, json_keys v = listed_columns c) (snd <$> sel).
Proof.
  intros Hauth. unfold app.
  destruct (under_admin (route_of c)) eqn:Hadmin.
  - apply authorized_gate in Hauth as (req' & -> & _); [|done].
    destruct c as [e|e| |]; try discriminate Hadmin; try destruct e;
      simpl handler; simpl cap; simpl newest_first; cbv iota;
      unfold get_admin_services, get_admin_team, get_admin_testimonials,
        get_admin_gallery, get_admin_posts, get_admin_appointments,
        get_admin_contacts;
      lazymatch goal with
      | |- context [select_all ?t ?cond ?o ?limit ?cols] =>
          destruct (select_all_pairs t cond o limit cols)
            as (sel & rest & -> & Hsorted & Hperm & _ & Hlimit & Hcols)
      end;
      rewrite filter_all in Hperm;
      exists sel, rest; repeat split; try done;
      (eapply Forall_impl; [exact Hcols|]); by intros v [r ->].
  - clear Hauth.
    destruct c as [e|e| |]; try discriminate Hadmin; destruct e;
      simpl handler; simpl cap; simpl newest_first; cbv iota;
      unfold get_services, get_team, get_testimonials, get_gallery,
        get_posts;
      lazymatch goal with
      | |- context [select_all ?t ?cond ?o ?limit ?cols] =>
          destruct (select_all_pairs t cond o limit cols)
            as (sel & rest & -> & Hsorted & Hperm & Hrest & Hlimit & Hcols)
      end;
      exists sel, rest; repeat split; try done;
      (eapply Forall_impl; [exact Hcols|]); by intros v [r ->].
Qed.

End Properties.

(** * Further properties of the store and the routes *)

Section Store.
Context `{Platform}.

Import Zod.

(** ** Statements on one table *)

Section table.
Context {R : Type} `{Row R}.

Lemma insert_eq (t : table R) mk :
  insert t mk
  = (Table (rows t ++ [mk (next_rowid t)]) (next_rowid t),
     Info 1 (next_rowid t)).
Proof. done. Qed.

Lemma keyed_max_rowid (t : table R) :
  keyed_table t → max_rowid t ≤ seq t.
Proof.
  destruct t as [l s]. intros (_ & Hseq & Hall). unfold max_rowid.
  cbn [rows seq] in *.
  induction Hall as [|r l Hr Hall IH]; [done|].
  rewrite fmap_cons. cbn [foldr]. apply Z.max_lub; [apply Hr|done].
Qed.

Lemma keyed_next_rowid (t : table R) :
  keyed_table t → next_rowid t = seq t + 1.
Proof. intros Hk%keyed_max_rowid. unfold next_rowid. lia. Qed.

Lemma insert_keyed (t : table R) mk :
  (∀ i, rowid (mk i) = i) →
  keyed_table t → keyed_table (fst (insert t mk)).
Proof.
  intros Hmk Hk. pose proof (keyed_next_rowid t Hk) as Hnext.
  destruct Hk as (Hnd & Hseq & Hall). rewrite insert_eq, Hnext.
  unfold keyed_table. cbn [fst rows seq]. split; [|split; [lia|]].
  - rewrite fmap_app. apply NoDup_app. split; [done|]. split.
    + intros i (r & -> & Hr)%list_elem_of_fmap. simpl. rewrite Hmk.
      rewrite list_elem_of_singleton.
      rewrite Forall_forall in Hall. specialize (Hall r Hr). lia.
    + simpl. apply NoDup_singleton.
  - apply Forall_app. split.
    + eapply Forall_impl; [exact Hall|]. simpl. intros r Hr. lia.
    + apply Forall_singleton. rewrite Hmk. lia.
Qed.

Lemma update_keyed (t : table R) p set :
  (∀ r, rowid (set r) = rowid r) →
  keyed_table t → keyed_table (fst (update_by_id t p set)).
Proof.
  intros Hset (Hnd & Hseq & Hall). unfold update_by_id, keyed_table.
  cbn [fst rows seq].
  assert (∀ r, rowid (if decide (id_is p r) then set r else r) = rowid r)
    as Hid by (intros r; by case_decide).
  split; [|split; [done|]].
  - rewrite <- list_fmap_compose.
    by rewrite (list_fmap_ext _ rowid (rows t)) by (intros; apply Hid).
  - apply Forall_fmap. eapply Forall_impl; [exact Hall|].
    intros r Hr. simpl. by rewrite Hid.
Qed.

Lemma delete_keyed (t : table R) p :
  keyed_table t → keyed_table (fst (delete_by_id t p)).
Proof.
  intros (Hnd & Hseq & Hall). unfold delete_by_id, keyed_table.
  cbn [fst rows seq].
  split; [|split; [done|]].
  - eapply sublist_NoDup; [exact Hnd|].
    apply fmap_sublist, sublist_filter.
  - rewrite Forall_forall in Hall. apply Forall_forall.
    intros r [_ Hr]%list_elem_of_filter. auto.
Qed.

End table.

(** ** One request, seen from the store *)

Lemma app_cases env r req now db :
  (∃ res, app env r req now db = (res, db))
  ∨ (∃ req', body req' = body req ∧ params_id req' = params_id req
             ∧ app env r req now db = handler env r req' now db).
Proof.
  unfold app. destruct (under_admin r); [|right; by exists req].
  destruct (gate_cases env now req)
    as [(res & -> & _) | (req' & -> & Hb & Hp)].
  - left. by eexists.
  - right. by exists req'.
Qed.

Local Ltac split_data :=
  repeat match goal with
         | d : (_ * _)%type |- _ => destruct d
         | u : unit |- _ => destruct u
         end.

(** Go through the routes, down to the statement each one runs. *)
Local Ltac by_route r :=
  destruct r as [|[]| | | |[]|[]|[]|[]| | | | | |]; simpl handler;
  unfold post_auth_login, get_services, get_team, get_testimonials,
    get_gallery, get_posts, get_posts_id, post_appointments, post_contact,
    get_admin_services, post_admin_services, put_admin_services,
    delete_admin_services, get_admin_team, post_admin_team, put_admin_team,
    delete_admin_team, get_admin_testimonials, post_admin_testimonials,
    put_admin_testimonials, delete_admin_testimonials, get_admin_gallery,
    post_admin_gallery, put_admin_gallery, delete_admin_gallery,
    get_admin_posts, post_admin_posts, put_admin_posts, delete_admin_posts,
    get_admin_appointments, put_admin_appointments_status,
    delete_admin_appointments, get_admin_contacts, delete_admin_contacts,
    get_health;
  repeat (split_data; cbn beta iota; cbn [negb];
          match goal with
          | |- context [safeParse ?s ?b] =>
              let Hparse := fresh "Hparse" in
              destruct (safeParse s b) as [?|?] eqn:Hparse
          | |- context [select_get ?t ?P] =>
              let Hget := fresh "Hget" in
              destruct (select_get t P) eqn:Hget
          | |- context [verifyPassword ?h ?p] =>
              let Hverify := fresh "Hverify" in
              destruct (verifyPassword h p) eqn:Hverify
          | |- context [signToken ?e ?n ?u] =>
              destruct (signToken e n u)
          end);
  split_data; cbn beta iota; cbn [negb];
  try match goal with
      | |- context [insert ?t ?mk] =>
          let x := fresh in
          set (x := insert t mk); rewrite (surjective_pairing x); subst x
      | |- context [update_by_id ?t ?p ?f] =>
          let x := fresh in
          set (x := update_by_id t p f); rewrite (surjective_pairing x);
          subst x
      | |- context [delete_by_id ?t ?p] =>
          let x := fresh in
          set (x := delete_by_id t p); rewrite (surjective_pairing x);
          subst x
      end;
  cbn [fst snd].

Lemma handler_keyed env r req now db :
  keyed db → keyed (snd (handler env r req now db)).
Proof.
  intros Hk. by_route r; try done;
    destruct Hk as (? & ? & ? & ? & ? & ? & ? & ?);
    unfold keyed, set_services, set_team, set_testimonials, set_gallery,
      set_posts, set_appointments, set_contacts;
    cbn [users services team testimonials gallery posts appointments
         contacts];
    refine (conj _ (conj _ (conj _ (conj _ (conj _ (conj _ (conj _ _)))))));
    first [ assumption | by apply insert_keyed | by apply update_keyed
          | by apply delete_keyed ].
Qed.

Lemma handler_seq env r req now db k :
  seq_of k db ≤ seq_of k (snd (handler env r req now db)).
Proof.
  by_route r; destruct k; try done;
    unfold insert, update_by_id, delete_by_id, next_rowid;
    cbn [fst snd seq_of set_services set_team set_testimonials set_gallery
         set_posts set_appointments set_contacts users services team
         testimonials gallery posts appointments contacts seq];
    lia.
Qed.

(** X1. Every request keeps the keys of the store in order: if in each
    table the ids are unique, positive and not above the table's sequence
    counter, they still are after the request, whatever the route and the
    request; and no sequence counter ever goes down. *)
Theorem requests_keep_keys env r req now db :
  keyed db →
  keyed (snd (app env r req now db))
  ∧ ∀ k, seq_of k db ≤ seq_of k (snd (app env r req now db)).
Proof.
  intros Hk.
  destruct (app_cases env r req now db)
    as [(res & ->) | (req' & _ & _ & ->)].
  - split; [done|]. intros k. cbn [snd]. lia.
  - split; [by apply handler_keyed|]. intros k. apply handler_seq.
Qed.

(** ** The boot sequence and the keys *)

Lemma seedIfEmpty_keyed now db : keyed db → keyed (seedIfEmpty now db).
Proof.
  intros Hk. unfold seedIfEmpty. case_decide; [|done].
  destruct Hk as (? & ? & ? & ? & ? & ? & ? & ?).
  unfold keyed, set_services.
  cbn [users services team testimonials gallery posts appointments
       contacts].
  refine (conj _ (conj _ (conj _ (conj _ (conj _ (conj _ (conj _ _)))))));
    try assumption.
  by repeat apply insert_keyed.
Qed.

Lemma seedIfEmpty_seq now db k :
  seq_of k db ≤ seq_of k (seedIfEmpty now db).
Proof.
  unfold seedIfEmpty. case_decide; [|done].
  destruct k; try done.
  unfold insert, next_rowid. cbn [seq_of set_services services fst seq].
  lia.
Qed.

Lemma ensureAdminUser_cases env now e db :
  ensureAdminUser env now e db = db
  ∨ ∃ email pwd,
      ADMIN_EMAIL env = Some email ∧ email ≠ ""
      ∧ ADMIN_PASSWORD env = Some pwd ∧ pwd ≠ ""
      ∧ (∀ u, u ∈ rows (users db) → User.email u ≠ email)
      ∧ ensureAdminUser env now e db
        = set_users db
            (fst (insert (users db) (λ id,
               User.Build id email (bcrypt_hashSync pwd e) "admin" now))).
Proof.
  unfold ensureAdminUser.
  destruct (ADMIN_EMAIL env) as [[|c email]|]; try by left.
  destruct (ADMIN_PASSWORD env) as [[|c' pwd]|]; try by left.
  cbn [unset orb default].
  destruct (select_get (users db) _) as [u|] eqn:Hget; [by left|].
  right. exists (String c email), (String c' pwd).
  repeat split; try done.
  intros u Hu. by apply (select_get_none _ _ Hget).
Qed.

(** X2. The boot sequence keeps the keys in order and e-mail addresses
    unique: from a store whose ids are unique, positive and below their
    counters and whose users have distinct e-mails, [startup] yields
    such a store again, and lowers no sequence counter. *)
Theorem startup_keeps_keys env now e db :
  keyed db →
  NoDup (User.email <$> rows (users db)) →
  keyed (startup env now e db)
  ∧ NoDup (User.email <$> rows (users (startup env now e db)))
  ∧ ∀ k, seq_of k db ≤ seq_of k (startup env now e db).
Proof.
  intros Hk Hnd. unfold startup.
  pose proof (seedIfEmpty_keyed now db Hk) as Hk'.
  pose proof (seedIfEmpty_seq now db) as Hseq.
  rewrite <- (seedIfEmpty_users now db) in Hnd.
  destruct (ensureAdminUser_cases env now e (seedIfEmpty now db))
    as [-> | (email & pwd & _ & _ & _ & _ & Hfresh & ->)]; [done|].
  destruct Hk' as (? & ? & ? & ? & ? & ? & ? & ?).
  split; [|split].
  - unfold keyed, set_users.
    cbn [users services team testimonials gallery posts appointments
         contacts].
    refine (conj _ (conj _ (conj _ (conj _ (conj _ (conj _ (conj _ _)))))));
      try assumption.
    by apply insert_keyed.
  - cbn [set_users users]. rewrite insert_eq. cbn [fst rows].
    rewrite fmap_app. apply NoDup_app. split; [done|]. split.
    + intros a (u & -> & Hu)%list_elem_of_fmap.
      cbn [fmap list_fmap User.email].
      rewrite list_elem_of_singleton. by apply Hfresh.
    + apply NoDup_singleton.
  - intros k. etrans; [apply Hseq|].
    destruct k; try done.
    unfold insert, next_rowid. cbn [seq_of set_users users fst seq]. lia.
Qed.

(** ** What a route writes *)

Lemma handler_frame env r req now db k :
  writes r ≠ Some k → same_table k db (snd (handler env r req now db)).
Proof.
  intros Hw. by_route r; destruct k; try done; by destruct Hw.
Qed.

(** X3. A request writes at most the one table of its route: every other
    table is left exactly as it was. The GET routes and the login write
    none, and no route writes the users table. *)
Theorem route_writes_one_table env r req now db k :
  writes r ≠ Some k → same_table k db (snd (app env r req now db)).
Proof.
  intros Hw.
  destruct (app_cases env r req now db)
    as [(res & ->) | (req' & _ & _ & ->)].
  - by destruct k.
  - by apply handler_frame.
Qed.

(** ** Creating rows *)

Local Ltac open_shape Hp :=
  unfold safeParse in Hp; cbv beta iota in Hp;
  unfold LoginSchema, AppointmentSchema, ContactSchema, ServiceSchema,
    TeamSchema, TestimonialSchema, GallerySchema, PostSchema, StatusSchema
    in Hp.

Local Ltac read_fields Hp :=
  repeat (let Hf := fresh "Hf" in
          apply parse_shape_field in Hp as [Hf Hp]).

(** X4. A body the contact schema accepts is an object whose [name] and
    [message] are strings of at least 2 characters and whose [email]
    passes the e-mail check; POST /contact then appends exactly one row
    with these three values, the server's clock as [created_at] and an id
    above every existing one, leaves the other tables alone, and answers
    201 with that id. *)
Theorem contact_created env req now db data :
  safeParse ContactSchema (body req) = inr data →
  ∃ o name email message row,
    body req = Some (JObj o)
    ∧ (obj_get "name" o = Some (JStr name) ∧ (2 ≤ js_length name)%nat)
    ∧ (obj_get "email" o = Some (JStr email) ∧ zod_email email = true)
    ∧ (obj_get "message" o = Some (JStr message)
       ∧ (2 ≤ js_length message)%nat)
    ∧ app env PostContact req now db
      = (Res 201 (Json (JObj [("id", JInt (Contact.id row))])),
         set_contacts db
           (Table (rows (contacts db) ++ [row]) (Contact.id row)))
    ∧ row = Contact.Build (Contact.id row) name email message now
    ∧ Forall (λ r, Contact.id r < Contact.id row) (rows (contacts db)).
Proof.
  intros Hp. unfold app. simpl. unfold post_contact. rewrite Hp.
  destruct (body req) as [[| | | | |o]|] eqn:Hbody; try discriminate Hp.
  open_shape Hp. split_data. read_fields Hp.
  apply zparse_string_inr in Hf as [Hname Hn%string_issues_min].
  apply zparse_string_inr in Hf0 as [Hemail He%string_issues_email].
  apply zparse_string_inr in Hf1 as [Hmessage Hm%string_issues_min].
  exists o, s, s0, s1,
    (Contact.Build (next_rowid (contacts db)) s s0 s1 now).
  rewrite insert_eq. cbn [fst snd lastInsertRowid Contact.id].
  repeat split; try done.
  apply (next_rowid_fresh (contacts db)).
Qed.

Lemma zparse_optional_text_value v x :
  zparse (ZNullable (ZOptional (ZString []))) v = inr x →
  or_null (mjoin x) = stored_text v.
Proof.
  destruct v as [[]|]; simpl; try discriminate; try by intros [= <-].
  intros [= <-]. simpl. destruct s; [done|]. by rewrite decide_False.
Qed.

(** X5. POST /appointments stores each of [service], [datetime] and
    [notes] as the submitted string when that is a non-empty string, and
    as NULL when the field is absent, [null] or the empty string. *)
Theorem appointment_optional_text env req now db data o :
  safeParse AppointmentSchema (body req) = inr data →
  body req = Some (JObj o) →
  ∃ row,
    last (rows (appointments (snd (app env PostAppointments req now db))))
    = Some row
    ∧ Appointment.service row = stored_text (obj_get "service" o)
    ∧ Appointment.datetime row = stored_text (obj_get "datetime" o)
    ∧ Appointment.notes row = stored_text (obj_get "notes" o).
Proof.
  intros Hp Hbody. unfold app. simpl. unfold post_appointments. rewrite Hp.
  rewrite Hbody in Hp. open_shape Hp. split_data. read_fields Hp.
  apply zparse_optional_text_value in Hf2, Hf3, Hf4.
  rewrite insert_eq. cbn [fst snd set_appointments appointments rows].
  eexists. rewrite last_snoc. split; [done|].
  cbn [Appointment.service Appointment.datetime Appointment.notes].
  by rewrite Hf2, Hf3, Hf4.
Qed.

Lemma app_reaches env r req now db :
  under_admin r = false ∨ authorized env now req →
  ∃ req', body req' = body req ∧ params_id req' = params_id req
          ∧ app env r req now db = handler env r req' now db.
Proof.
  unfold app. intros [-> | Hauth]; [by exists req|].
  destruct (under_admin r); [|by exists req].
  apply authorized_gate in Hauth as (req' & -> & Hb & Hp). by exists req'.
Qed.

Lemma accepted_not_inl r {A} (s : zshape A) b issues :
  schema_of r = Some (existT A s) →
  accepted r b → safeParse s b = inl issues → False.
Proof.
  intros Hs Hacc Hp. destruct (accepted_inr r s b Hs Hacc) as [d Hd].
  congruence.
Qed.

Lemma handler_creates env r req now db k :
  creates r = true → writes r = Some k → keyed db →
  accepted r (body req) →
  let i := seq_of k db + 1 in
  let res := fst (handler env r req now db) in
  let db' := snd (handler env r req now db) in
  status res = 201 ∧ response_id res = Some (JInt i)
  ∧ ids_of k db' = ids_of k db ++ [i]
  ∧ stamps_of k db' = stamps_of k db ++ [(i, now)]
  ∧ seq_of k db' = i.
Proof.
  intros Hc Hw Hk Hacc. destruct Hk as (? & ? & ? & ? & ? & ? & ? & ?).
  by_route r; try discriminate Hc;
    try (exfalso; eapply accepted_not_inl; [|exact Hacc|exact Hparse];
         reflexivity);
    injection Hw as <-; rewrite insert_eq, keyed_next_rowid by done;
    cbn; by rewrite ?fmap_app.
Qed.

(** X6. On every creating route (POST /appointments, POST /contact and
    the five admin POSTs), in a store whose keys are in order, a request
    that reaches the handler with an accepted body is answered 201 with
    the id [seq + 1], where [seq] is the sequence counter of the route's
    table; the table gains exactly one row, last, with that id and the
    server's clock as [created_at], and the counter becomes that id. As
    no request lowers a counter (X1), an id never comes back, whatever
    was deleted before. *)
Theorem create_appends env r req now db k :
  creates r = true → writes r = Some k → keyed db →
  accepted r (body req) →
  under_admin r = false ∨ authorized env now req →
  let i := seq_of k db + 1 in
  let res := fst (app env r req now db) in
  let db' := snd (app env r req now db) in
  status res = 201 ∧ response_id res = Some (JInt i)
  ∧ ids_of k db' = ids_of k db ++ [i]
  ∧ stamps_of k db' = stamps_of k db ++ [(i, now)]
  ∧ seq_of k db' = i.
Proof.
  intros Hc Hw Hk Hacc (req' & Hb & _ & ->)%(app_reaches env r req now db).
  rewrite <- Hb in Hacc. by apply handler_creates.
Qed.

(** ** A post by id *)

(** X7. GET /posts/:id serves a post only if it is published: either
    some row of the posts table matches the id parameter and has
    [published = 1], and the answer is 200 with that row's id, title,
    excerpt, content, cover_url and created_at; or no row does, and the
    answer is 404 [not_found]. The store is not written. *)
Theorem post_detail_published_only env req now db :
  (∃ p, p ∈ rows (posts db) ∧ id_is (params_id req) p
        ∧ Post.published p = 1
        ∧ app env GetPostsId req now db = (ok_json (posts_detail p), db))
  ∨ ((∀ p, p ∈ rows (posts db) → id_is (params_id req) p →
           Post.published p ≠ 1)
     ∧ app env GetPostsId req now db = (error_json 404 "not_found", db)).
Proof.
  unfold app. simpl. unfold get_posts_id.
  destruct (select_get (posts db) _) as [p|] eqn:Hget.
  - left. apply select_get_some in Hget as (Hp & Hid & Hpub). by exists p.
  - right. split; [|done]. intros p Hp Hid Hpub.
    by apply (select_get_none _ _ Hget p Hp).
Qed.

(** ** Deleting rows *)

Section table_delete.
Context {R : Type} `{Row R}.

Lemma delete_by_id_rows (t : table R) p (f : R → Z * jvalue) :
  (∀ r, fst (f r) = rowid r) →
  f <$> rows (fst (delete_by_id t p))
  = filter (λ x, sqlite_numeric p ≠ Some (fst x)) (f <$> rows t).
Proof.
  intros Hf. unfold delete_by_id. cbn [fst rows].
  induction (rows t) as [|r l IH]; [done|].
  rewrite fmap_cons, !filter_cons, <- IH. unfold id_is. rewrite Hf.
  by repeat case_decide.
Qed.

Lemma delete_by_id_changes (t : table R) p (f : R → Z * jvalue) :
  (∀ r, fst (f r) = rowid r) →
  changes (snd (delete_by_id t p))
  = Z.of_nat (length (filter (λ x, sqlite_numeric p = Some (fst x))
                        (f <$> rows t))).
Proof.
  intros Hf. unfold delete_by_id. cbn [snd changes]. do 2 f_equal.
  induction (rows t) as [|r l IH]; [done|].
  rewrite fmap_cons. destruct (decide (id_is p r)) as [Hid|Hid].
  - rewrite !filter_cons_True by (by rewrite ?Hf). simpl. by rewrite IH.
  - rewrite !filter_cons_False by (by rewrite ?Hf). done.
Qed.

Lemma delete_by_id_twice (t : table R) p :
  delete_by_id (fst (delete_by_id t p)) p
  = (fst (delete_by_id t p), Info 0 0).
Proof.
  apply delete_by_id_no_match. unfold delete_by_id. cbn [fst rows].
  by intros r [? ?]%list_elem_of_filter.
Qed.

End table_delete.

Lemma handler_deletes env r req now now' db :
  deletes r = true →
  let c := collection_of r in
  let gone x := sqlite_numeric (params_id req) = Some (fst x) in
  let db' := snd (handler env r req now db) in
  fst (handler env r req now db)
  = ok_json (JObj [("deleted",
       JInt (Z.of_nat (length (filter gone (matching c db)))))])
  ∧ matching c db' = filter (λ x, ¬ gone x) (matching c db)
  ∧ handler env r req now' db' = (ok_json (JObj [("deleted", JInt 0)]), db').
Proof.
  intros Hd. destruct r as [| | | | | | | |[]| | | | | |];
    try discriminate Hd; simpl handler;
    unfold delete_admin_services, delete_admin_team,
      delete_admin_testimonials, delete_admin_gallery, delete_admin_posts,
      delete_admin_appointments, delete_admin_contacts;
    lazymatch goal with
    | |- context [delete_by_id ?t ?p] =>
        set (d := delete_by_id t p);
        rewrite (surjective_pairing d); subst d
    end;
    cbn [fst snd collection_of matching set_services set_team
         set_testimonials set_gallery set_posts set_appointments
         set_contacts services team testimonials gallery posts appointments
         contacts];
    rewrite delete_by_id_twice; cbn [fst snd];
    (split;
     [ unfold deleted; erewrite delete_by_id_changes; [reflexivity|done]
     | split; [by apply delete_by_id_rows|done] ]).
Qed.

(** X8. An authorized DELETE removes from its table exactly the rows the
    id parameter matches and leaves every other row as it was, column for
    column; it reports the number of rows removed; and repeating it finds
    nothing left: the answer is then [{deleted: 0}] and the store stays
    as the first DELETE left it. *)
Theorem delete_removes_matching env r req now now' db :
  deletes r = true →
  authorized env now req → authorized env now' req →
  let c := collection_of r in
  let gone x := sqlite_numeric (params_id req) = Some (fst x) in
  let db' := snd (app env r req now db) in
  fst (app env r req now db)
  = ok_json (JObj [("deleted",
       JInt (Z.of_nat (length (filter gone (matching c db)))))])
  ∧ matching c db' = filter (λ x, ¬ gone x) (matching c db)
  ∧ app env r req now' db' = (ok_json (JObj [("deleted", JInt 0)]), db').
Proof.
  intros Hd Hauth Hauth'. cbv zeta.
  destruct (app_reaches env r req now db (or_intror Hauth))
    as (req1 & _ & Hp1 & ->).
  destruct (app_reaches env r req now'
              (snd (handler env r req1 now db)) (or_intror Hauth'))
    as (req2 & _ & Hp2 & ->).
  rewrite <- Hp1.
  destruct (handler_deletes env r req1 now now' db Hd) as (Hres & Hrows & _).
  split; [done|]. split; [done|].
  assert (handler env r req2 now' (snd (handler env r req1 now db))
          = handler env r req1 now' (snd (handler env r req1 now db)))
    as ->.
  { destruct r as [| | | | | | | |[]| | | | | |]; try discriminate Hd;
      simpl handler;
      unfold delete_admin_services, delete_admin_team,
        delete_admin_testimonials, delete_admin_gallery, delete_admin_posts,
        delete_admin_appointments, delete_admin_contacts;
      by rewrite Hp2, Hp1. }
  by destruct (handler_deletes env r req1 now now' db Hd) as (_ & _ & ->).
Qed.

(** ** The schema as an allow-list *)

Lemma parse_shape_ext {A} (s : zshape A) o o' :
  (∀ f, f ∈ field_names s → obj_get f o = obj_get f o') →
  parse_shape s o = parse_shape s o'.
Proof.
  induction s as [|A B name t rest IH]; intros Hsame; [done|].
  simpl. rewrite (Hsame name) by (simpl; by left).
  rewrite IH; [done|]. intros f Hf. apply Hsame. simpl. by right.
Qed.

Lemma handler_body_ext env r req req' now db :
  params_id req' = params_id req →
  (∀ A (s : zshape A), schema_of r = Some (existT A s) →
     safeParse s (body req') = safeParse s (body req)) →
  handler env r req' now db = handler env r req now db.
Proof.
  intros Hp Hs.
  destruct r as [|[]| | | |[]|[]|[]|[]| | | | | |]; simpl handler;
    try reflexivity;
    unfold post_auth_login, get_posts_id, post_appointments, post_contact,
      post_admin_services, put_admin_services, delete_admin_services,
      post_admin_team, put_admin_team, delete_admin_team,
      post_admin_testimonials, put_admin_testimonials,
      delete_admin_testimonials, post_admin_gallery, put_admin_gallery,
      delete_admin_gallery, post_admin_posts, put_admin_posts,
      delete_admin_posts, put_admin_appointments_status,
      delete_admin_appointments, delete_admin_contacts;
    rewrite ?Hp; try reflexivity;
    by rewrite (Hs _ _ eq_refl).
Qed.

Lemma gate_with_body env now req b :
  snd (admin_gate env now (with_body req b))
  = match snd (admin_gate env now req) with
    | Respond res => Respond res
    | Next req' => Next (with_body req' b)
    end.
Proof.
  unfold admin_gate, run_stack, authMiddleware, with_body.
  cbn [authorization params_id body user].
  destruct (bearer_token _) as [[|c token]|]; try done.
  destruct (jwt_verify _ _ _) as [claims|]; [|done].
  unfold ensureAdmin. cbn [authorization params_id body user].
  by destruct (is_admin_string _).
Qed.

(** X9. A schema is an allow-list: a request whose object body is
    replaced by another object that agrees with it on every field the
    route's schema declares is handled identically, in the answer and in
    the store. Keys outside the schema, such as [id], [created_at] or an
    appointment's [status], have no effect; routes that declare no schema
    ignore the body altogether. *)
Theorem undeclared_keys_are_ignored env r req now db o o' :
  body req = Some (JObj o) →
  (∀ f, f ∈ schema_fields r → obj_get f o = obj_get f o') →
  app env r (with_body req (Some (JObj o'))) now db = app env r req now db.
Proof.
  intros Hbody Hsame.
  assert (∀ q q', params_id q' = params_id q →
                   body q = Some (JObj o) → body q' = Some (JObj o') →
                   handler env r q' now db = handler env r q now db)
    as Hext.
  { intros q q' Hp Hq Hq'. apply handler_body_ext; [done|].
    intros A s Hs. rewrite Hq, Hq'. unfold safeParse.
    symmetry. apply parse_shape_ext. unfold schema_fields in Hsame.
    by rewrite Hs in Hsame. }
  unfold app. destruct (under_admin r); [|by apply Hext].
  rewrite gate_with_body.
  destruct (gate_cases env now req)
    as [(res & -> & _) | (req' & -> & Hb & _)]; [done|].
  apply Hext; [done|by rewrite Hb|done].
Qed.

(** ** The gate, both ways *)

Lemma gate_next_inv env now req req' :
  snd (admin_gate env now req) = Next req' →
  ∃ token claims,
    authorization req = Some ("Bearer " +:+ token) ∧ token ≠ ""
    ∧ jwt_verify (JWT_SECRET env) token now = Some claims
    ∧ role_of (Some claims) = Some (JStr "admin")
    ∧ req' = {| authorization := authorization req;
                params_id := params_id req; body := body req;
                user := Some claims |}.
Proof.
  unfold admin_gate, run_stack, authMiddleware.
  destruct (bearer_token _) as [[|c token]|] eqn:Hb; try discriminate.
  apply bearer_token_some in Hb.
  destruct (jwt_verify _ _ _) as [claims|] eqn:Hv; [|discriminate].
  unfold ensureAdmin. cbn [user].
  destruct (is_admin_string _) eqn:Ha; [|discriminate].
  cbn [negb snd]. intros [= <-].
  apply is_admin_string_spec in Ha.
  exists (String c token), claims. repeat split; try done.
  destruct (authorization req) as [h|]; [|discriminate Hb].
  simpl in Hb. by rewrite Hb.
Qed.

(** X10. The admin gate lets a request through exactly when its
    Authorization header is "Bearer " followed by a non-empty token that
    [jwt.verify] accepts with a role claim equal to the string "admin".
    The handler then sees the same header, id parameter and body, with
    the verified claims as [req.user]; any other request is answered 401
    or 403 and reaches no handler. *)
Theorem gate_passes_iff_authorized env now req :
  (authorized env now req ↔ ∃ req', snd (admin_gate env now req) = Next req')
  ∧ (∀ req', snd (admin_gate env now req) = Next req' →
       authorization req' = authorization req
       ∧ params_id req' = params_id req ∧ body req' = body req
       ∧ ∃ token, authorization req = Some ("Bearer " +:+ token)
                  ∧ user req' = jwt_verify (JWT_SECRET env) token now)
  ∧ (¬ authorized env now req →
       ∃ res, snd (admin_gate env now req) = Respond res
              ∧ (status res = 401 ∨ status res = 403)).
Proof.
  split; [split|split].
  - intros (req' & Hg & _)%authorized_gate. by exists req'.
  - intros [req' (token & claims & ? & ? & ? & ? & _)%gate_next_inv].
    by exists token, claims.
  - intros req' (token & claims & Ha & _ & Hv & _ & ->)%gate_next_inv.
    repeat split; try done. exists token. by rewrite Hv.
  - intros Hno.
    destruct (gate_cases env now req) as [Hres | (req' & Hg & _)]; [done|].
    destruct Hno.
    apply gate_next_inv in Hg as (token & claims & ? & ? & ? & ? & _).
    by exists token, claims.
Qed.

(** ** Value ranges *)

Lemma int_issues_nil cs n :
  int_issues cs n = [] →
  ∃ q, n = Fin q
       ∧ Forall (λ c, match c with
                      | NMin k => k ≤ Qfloor q
                      | NMax k => Qfloor q ≤ k
                      end) cs.
Proof.
  unfold int_issues. intros [Hint Hchecks]%app_eq_nil.
  destruct n as [q|neg]; [|discriminate Hint].
  exists q. split; [done|].
  induction cs as [|c cs IH]; [done|].
  simpl in Hchecks. apply app_eq_nil in Hchecks as [Hc Hcs].
  constructor; [|by apply IH].
  destruct c as [k|k]; simpl in Hc.
  - destruct (Qle_bool (inject_Z k) q) eqn:Hle; [|discriminate Hc].
    apply Qle_bool_iff, Qfloor_resp_le in Hle. by rewrite Qfloor_Z in Hle.
  - destruct (Qle_bool q (inject_Z k)) eqn:Hle; [|discriminate Hc].
    apply Qle_bool_iff, Qfloor_resp_le in Hle. by rewrite Qfloor_Z in Hle.
Qed.

Lemma zparse_int_bounds cs v z :
  zparse (ZInt cs) v = inr z →
  Forall (λ c, match c with
               | NMin k => k ≤ z
               | NMax k => z ≤ k
               end) cs.
Proof.
  simpl. destruct v as [[| |n| | |]|]; try discriminate.
  destruct (int_issues cs n) eqn:Hi; [|discriminate].
  intros [= <-]. by apply int_issues_nil in Hi as (q & -> & Hq).
Qed.

Lemma zparse_enum_inr values v s :
  zparse (ZEnum values) v = inr s → s ∈ values.
Proof.
  simpl. destruct v as [[]|]; try discriminate.
  case_bool_decide; [|discriminate]. by intros [= <-].
Qed.

Lemma is_flag_flag b : is_flag (flag b).
Proof. destruct b; [by right|by left]. Qed.

Lemma service_schema_price b title description price active :
  safeParse ServiceSchema b = inr (title, (description, (price, (active, ())))) →
  0 ≤ price.
Proof.
  destruct b as [[| | | | |o]|]; try discriminate. intros Hp.
  open_shape Hp. read_fields Hp.
  apply zparse_int_bounds in Hf1. by apply Forall_cons in Hf1 as [? _].
Qed.

Lemma testimonial_schema_rating b author content rating active :
  safeParse TestimonialSchema b
  = inr (author, (content, (rating, (active, ())))) →
  1 ≤ rating ≤ 5.
Proof.
  destruct b as [[| | | | |o]|]; try discriminate. intros Hp.
  open_shape Hp. read_fields Hp.
  apply zparse_int_bounds in Hf1.
  apply Forall_cons in Hf1 as [? [? _]%Forall_cons]. lia.
Qed.

Lemma status_schema_value b status :
  safeParse StatusSchema b = inr (status, ()) →
  status ∈ ["pending"; "confirmed"; "canceled"].
Proof.
  destruct b as [[| | | | |o]|]; try discriminate. intros Hp.
  open_shape Hp. read_fields Hp. by apply zparse_enum_inr in Hf.
Qed.

Section table_forall.
Context {R : Type} `{Row R} (P : R → Prop).

Lemma insert_Forall (t : table R) mk :
  P (mk (next_rowid t)) → Forall P (rows t) →
  Forall P (rows (fst (insert t mk))).
Proof.
  intros Hnew Hall. rewrite insert_eq. cbn [fst rows].
  apply Forall_app. split; [done|by apply Forall_singleton].
Qed.

Lemma update_Forall (t : table R) p set :
  (∀ r, P (set r)) → Forall P (rows t) →
  Forall P (rows (fst (update_by_id t p set))).
Proof.
  intros Hset Hall. unfold update_by_id. cbn [fst rows].
  apply Forall_fmap. eapply Forall_impl; [exact Hall|].
  intros r Hr. simpl. by case_decide.
Qed.

Lemma delete_Forall (t : table R) p :
  Forall P (rows t) → Forall P (rows (fst (delete_by_id t p))).
Proof.
  intros Hall. unfold delete_by_id. cbn [fst rows].
  rewrite Forall_forall in Hall. apply Forall_forall.
  intros r [_ Hr]%list_elem_of_filter. auto.
Qed.

End table_forall.

Lemma handler_tidy env r req now db :
  tidy db → tidy (snd (handler env r req now db)).
Proof.
  intros Ht. by_route r; try done;
    destruct Ht as (? & ? & ? & ? & ? & ?);
    try match goal with
        | Hp : safeParse ServiceSchema _ = inr _ |- _ =>
            pose proof (service_schema_price _ _ _ _ _ Hp)
        | Hp : safeParse TestimonialSchema _ = inr _ |- _ =>
            pose proof (testimonial_schema_rating _ _ _ _ _ Hp)
        | Hp : safeParse StatusSchema _ = inr _ |- _ =>
            pose proof (status_schema_value _ _ Hp)
        end;
    unfold tidy, set_services, set_team, set_testimonials, set_gallery,
      set_posts, set_appointments, set_contacts;
    cbn [users services team testimonials gallery posts appointments
         contacts];
    refine (conj _ (conj _ (conj _ (conj _ (conj _ _)))));
    first [ assumption
          | apply insert_Forall; [|assumption]
          | apply update_Forall; [intros ?|assumption]
          | by apply delete_Forall ];
    cbn; auto using is_flag_flag.
  apply list_elem_of_In. simpl. tauto.
Qed.

Lemma startup_tidy env now e db : tidy db → tidy (startup env now e db).
Proof.
  intros Ht. unfold startup.
  assert (tidy (seedIfEmpty now db)) as Ht'.
  { unfold seedIfEmpty. case_decide; [|done].
    destruct Ht as (? & ? & ? & ? & ? & ?).
    unfold tidy, set_services.
    cbn [users services team testimonials gallery posts appointments
         contacts].
    refine (conj _ (conj _ (conj _ (conj _ (conj _ _))))); try assumption.
    repeat (apply insert_Forall; [cbn; split; [lia|by right]|]).
    done. }
  destruct (ensureAdminUser_cases env now e (seedIfEmpty now db))
    as [-> | (? & ? & _ & _ & _ & _ & _ & ->)]; [done|].
  exact Ht'.
Qed.

(** X11. The value ranges the schemas enforce are invariants of the
    store: if every service has a non-negative price, every testimonial a
    rating from 1 to 5, every visibility flag the value 0 or 1 and every
    appointment one of the three statuses, the same holds after any
    request, accepted or not, and after the boot sequence. *)
Theorem store_stays_in_range env r req now e db :
  tidy db →
  tidy (snd (app env r req now db)) ∧ tidy (startup env now e db).
Proof.
  intros Ht. split; [|by apply startup_tidy].
  destruct (app_cases env r req now db)
    as [(res & ->) | (req' & _ & _ & ->)]; [done|].
  by apply handler_tidy.
Qed.

(** ** Replaying an update *)

Section table_update.
Context {R : Type} `{Row R}.

Lemma update_by_id_twice (t : table R) p set :
  (∀ r, rowid (set r) = rowid r) →
  (∀ r, set (set r) = set r) →
  update_by_id (fst (update_by_id t p set)) p set = update_by_id t p set.
Proof.
  intros Hid Hset. unfold update_by_id. cbn [fst rows seq].
  f_equal; [f_equal|do 2 f_equal].
  - rewrite <- list_fmap_compose. apply list_fmap_ext.
    intros i r _. simpl. destruct (decide (id_is p r)) as [Hr|Hr].
    + rewrite decide_True by (unfold id_is in *; by rewrite Hid).
      apply Hset.
    + by rewrite decide_False.
  - induction (rows t) as [|r l IH]; [done|].
    rewrite fmap_cons. destruct (decide (id_is p r)) as [Hr|Hr].
    + rewrite !filter_cons_True by (unfold id_is in *; by rewrite ?Hid).
      simpl. by rewrite IH.
    + by rewrite !filter_cons_False.
Qed.

Lemma update_by_id_image {B} (t : table R) p set (g : R → B) :
  (∀ r, g (set r) = g r) →
  g <$> rows (fst (update_by_id t p set)) = g <$> rows t.
Proof.
  intros Hg. unfold update_by_id. cbn [fst rows].
  rewrite <- list_fmap_compose. apply list_fmap_ext.
  intros i r _. simpl. by case_decide.
Qed.

End table_update.

Lemma handler_put_twice env r req req' now now' db :
  by_id r = true → deletes r = false →
  body req' = body req → params_id req' = params_id req →
  handler env r req' now' (snd (handler env r req now db))
  = handler env r req now db.
Proof.
  intros Hr Hd Hb Hp.
  destruct r as [| | | | | | |[]| | | | | | |];
    try discriminate Hr; try discriminate Hd; simpl handler;
    unfold put_admin_services, put_admin_team, put_admin_testimonials,
      put_admin_gallery, put_admin_posts, put_admin_appointments_status;
    rewrite Hb, Hp;
    lazymatch goal with
    | |- context [safeParse ?s ?b] => destruct (safeParse s b) as [?|?]
    end;
    try reflexivity; split_data;
    lazymatch goal with
    | |- context [update_by_id (?proj db) ?p ?f] =>
        pose proof (update_by_id_twice (proj db) p f) as Htwice;
        set (u := update_by_id (proj db) p f) in *;
        rewrite (surjective_pairing u)
    end;
    cbn [fst snd set_services set_team set_testimonials set_gallery
         set_posts set_appointments set_contacts services team testimonials
         gallery posts appointments contacts users];
    rewrite Htwice by done; clearbody u; by destruct u.
Qed.

(** X12. Replaying an authorized PUT changes nothing further: the second
    request, with the same id parameter and body, leaves the store as the
    first left it and gets the first answer again, be that a 400 or an
    [{updated: n}]. *)
Theorem put_is_idempotent env r req now now' db :
  by_id r = true → deletes r = false →
  authorized env now req → authorized env now' req →
  app env r req now' (snd (app env r req now db)) = app env r req now db.
Proof.
  intros Hr Hd Hauth Hauth'.
  destruct (app_reaches env r req now db (or_intror Hauth))
    as (req1 & Hb1 & Hp1 & ->).
  destruct (app_reaches env r req now'
              (snd (handler env r req1 now db)) (or_intror Hauth'))
    as (req2 & Hb2 & Hp2 & ->).
  apply handler_put_twice; congruence.
Qed.

(** ** Identity and creation time *)

Lemma handler_stamps env r req now db k x :
  x ∈ stamps_of k (snd (handler env r req now db)) →
  x ∈ stamps_of k db ∨ (snd x = now ∧ seq_of k db < fst x).
Proof.
  by_route r; destruct k;
    cbn [stamps_of seq_of set_services set_team set_testimonials set_gallery
         set_posts set_appointments set_contacts users services team
         testimonials gallery posts appointments contacts];
    intros Hx; try (by left);
    first
      [ rewrite insert_eq in Hx; cbn [fst rows] in Hx;
        rewrite fmap_app in Hx; cbn [fmap list_fmap] in Hx;
        apply elem_of_app in Hx as [Hx | [= -> ->]%list_elem_of_singleton];
        [by left|right; cbn; unfold next_rowid; lia]
      | rewrite update_by_id_image in Hx by done; by left
      | unfold delete_by_id in Hx; cbn [fst rows] in Hx;
        apply list_elem_of_fmap in Hx
          as (y & Heq & [_ Hy]%list_elem_of_filter);
        left; apply list_elem_of_fmap; by exists y ].
Qed.

(** X13. No request changes the id or the creation time of a row: every
    (id, created_at) pair found in a table after a request was there
    before it, except the pair of a row the request has just created,
    which carries the server's clock and an id above the table's former
    sequence counter. *)
Theorem ids_and_creation_times_are_fixed env r req now db k x :
  x ∈ stamps_of k (snd (app env r req now db)) →
  x ∈ stamps_of k db ∨ (snd x = now ∧ seq_of k db < fst x).
Proof.
  destruct (app_cases env r req now db)
    as [(res & ->) | (req' & _ & _ & ->)]; [by left|].
  apply handler_stamps.
Qed.

(** ** A created row in the admin list *)

Section table_listing.
Context {R : Type} `{Row R}.

Lemma order_desc_snoc (l : list R) x :
  NoDup (rowid <$> l) → Forall (λ r, rowid r < rowid x) l →
  order_by_id Desc (l ++ [x]) = x :: order_by_id Desc l.
Proof.
  intros Hnd Hlt. rewrite Forall_forall in Hlt.
  assert (NoDup (rowid <$> (l ++ [x]))) as Hnd'.
  { rewrite fmap_app. apply NoDup_app. split; [done|]. split.
    - intros i (r & -> & Hr)%list_elem_of_fmap.
      cbn [fmap list_fmap]. rewrite list_elem_of_singleton.
      specialize (Hlt r Hr). lia.
    - apply NoDup_singleton. }
  apply (StronglySorted_unique_strong id_ge).
  - intros a b Ha Hb Hab Hba.
    rewrite order_by_id_perm in Ha.
    assert (b ∈ l ++ [x]) as Hb'.
    { apply elem_of_cons in Hb as [-> | Hb].
      - apply elem_of_app. right. by left.
      - rewrite order_by_id_perm in Hb. apply elem_of_app. by left. }
    eapply (NoDup_fmap_eq rowid); [exact Hnd'|done..|].
    unfold id_ge in *. lia.
  - apply (order_by_id_sorted Desc).
  - apply StronglySorted_cons. split; [|apply (order_by_id_sorted Desc)].
    apply Forall_forall. intros r Hr. rewrite order_by_id_perm in Hr.
    unfold id_ge. specialize (Hlt r Hr). lia.
  - rewrite !order_by_id_perm. by rewrite Permutation_app_comm.
Qed.

Lemma select_all_created (t : table R) mk cols :
  (∀ i, rowid (mk i) = i) → keyed_table t →
  select_all (fst (insert t mk)) (λ _, True) Desc None cols
  = cols (mk (seq t + 1)) :: select_all t (λ _, True) Desc None cols.
Proof.
  intros Hmk Hk. unfold select_all. rewrite insert_eq. cbn [fst rows].
  rewrite (keyed_next_rowid t Hk), !filter_all.
  destruct Hk as (Hnd & _ & Hall).
  rewrite order_desc_snoc; [done|done|].
  eapply Forall_impl; [exact Hall|].
  intros r Hr. cbn beta in *. rewrite Hmk. lia.
Qed.

End table_listing.

Lemma handler_created_listed env r req areq now now' db :
  creates r = true → keyed db → accepted r (body req) →
  let db' := snd (handler env r req now db) in
  ∃ v out,
    fst (handler env (listed_by r) areq now' db') = ok_json (JArr (v :: out))
    ∧ fst (handler env (listed_by r) areq now' db) = ok_json (JArr out)
    ∧ json_id v = response_id (fst (handler env r req now db)).
Proof.
  intros Hc Hk Hacc. destruct Hk as (? & ? & ? & ? & ? & ? & ? & ?).
  by_route r; try discriminate Hc;
    try (exfalso; eapply accepted_not_inl; [|exact Hacc|exact Hparse];
         reflexivity);
    cbn [listed_by handler]; cbv zeta;
    unfold get_admin_services, get_admin_team, get_admin_testimonials,
      get_admin_gallery, get_admin_posts, get_admin_appointments,
      get_admin_contacts;
    cbn [fst snd set_services set_team set_testimonials set_gallery
         set_posts set_appointments set_contacts users services team
         testimonials gallery posts appointments contacts];
    rewrite select_all_created by done;
    rewrite insert_eq, keyed_next_rowid by done;
    eexists _, _; (split; [reflexivity|]); (split; [reflexivity|]);
    reflexivity.
Qed.

(** X14. A row just created is what the admin list of its table shows
    first: in a store whose keys are in order, after a creating request
    with an accepted body the admin collection answers with one more
    element, in front, carrying the id the creation answered, followed by
    exactly what it answered before. *)
Theorem created_row_is_listed_first env r req areq now now' db :
  creates r = true → keyed db → accepted r (body req) →
  under_admin r = false ∨ authorized env now req →
  authorized env now' areq →
  let db' := snd (app env r req now db) in
  ∃ v out,
    fst (app env (listed_by r) areq now' db') = ok_json (JArr (v :: out))
    ∧ fst (app env (listed_by r) areq now' db) = ok_json (JArr out)
    ∧ json_id v = response_id (fst (app env r req now db)).
Proof.
  intros Hc Hk Hacc (req' & Hb & _ & ->)%(app_reaches env r req now db) Ha.
  cbv zeta. rewrite <- Hb in Hacc.
  destruct (app_reaches env (listed_by r) areq now'
              (snd (handler env r req' now db)) (or_intror Ha))
    as (areq1 & _ & _ & ->).
  destruct (app_reaches env (listed_by r) areq now' db (or_intror Ha))
    as (areq2 & _ & _ & ->).
  destruct (handler_created_listed env r req' areq1 now now' db Hc Hk Hacc)
    as (v & out & Hnew & Hold & Hid).
  exists v, out. split; [done|]. split; [|done].
  rewrite <- Hold.
  destruct r as [|e| | | |e|e|e|e| | | | | |]; try discriminate Hc;
    try destruct e; reflexivity.
Qed.

(** ** From the bootstrap to a login *)

Lemma select_get_absent {R} (t : table R) (P : R → Prop)
    `{∀ r, Decision (P r)} :
  (∀ r, r ∈ rows t → ¬ P r) → select_get t P = None.
Proof. intros Hno. unfold select_get. by rewrite filter_none. Qed.

Lemma startup_creates_admin env now e db email pwd :
  ADMIN_EMAIL env = Some email → email ≠ "" →
  ADMIN_PASSWORD env = Some pwd → pwd ≠ "" →
  (∀ u, u ∈ rows (users db) → User.email u ≠ email) →
  let admin :=
    User.Build (next_rowid (users db)) email (bcrypt_hashSync pwd e)
      "admin" now in
  rows (users (startup env now e db)) = rows (users db) ++ [admin]
  ∧ select_get (users (startup env now e db)) (λ u, User.email u = email)
    = Some admin.
Proof.
  intros Hemail Hne Hpwd Hne' Hfresh admin. unfold startup, ensureAdminUser.
  rewrite Hemail, Hpwd. destruct email; [done|]. destruct pwd; [done|].
  cbn [unset orb default]. rewrite seedIfEmpty_users.
  rewrite select_get_absent by done.
  rewrite insert_eq. cbn [fst set_users users rows].
  split; [done|]. unfold select_get. cbn [rows].
  rewrite filter_app, filter_none by done.
  by rewrite filter_cons_True.
Qed.

Lemma login_parse_ok o email pwd :
  obj_get "email" o = Some (JStr email) →
  obj_get "password" o = Some (JStr pwd) →
  zod_email email = true → (3 ≤ js_length pwd)%nat →
  safeParse LoginSchema (Some (JObj o)) = inr (email, (pwd, ())).
Proof.
  intros He Hp Hvalid Hlen. unfold safeParse, LoginSchema.
  cbn [parse_shape]. rewrite He, Hp. cbn [zparse].
  unfold string_issues. cbn [map concat strcheck_issue].
  rewrite Hvalid. apply Nat.ltb_ge in Hlen as ->. done.
Qed.

Lemma login_parse_fails o email pwd :
  obj_get "email" o = Some (JStr email) →
  obj_get "password" o = Some (JStr pwd) →
  zod_email email = false ∨ (js_length pwd < 3)%nat →
  ∃ issues, safeParse LoginSchema (Some (JObj o)) = inl issues.
Proof.
  intros He Hp Hbad. unfold safeParse, LoginSchema.
  cbn [parse_shape]. rewrite He, Hp. cbn [zparse].
  unfold string_issues. cbn [map concat strcheck_issue].
  destruct Hbad as [-> | Hlen%Nat.ltb_lt].
  - destruct (js_length pwd <? 3)%nat; cbn; by eexists.
  - rewrite Hlen. destruct (zod_email email); cbn; by eexists.
Qed.

(** X15. The bootstrapped administrator can log in. With a signing secret
    configured, an admin e-mail that passes the e-mail check and was not
    in the users table, an admin password of at least 3 characters, and
    a hash that [bcrypt.compareSync] accepts for that password, a login
    with the configured credentials on the store the boot sequence leaves
    is answered with the token signed for a user of role "admin" carrying
    that e-mail. *)
Theorem bootstrapped_admin_can_log_in env now e now' db email pwd k req o :
  JWT_SECRET env = Some k → k ≠ "" →
  ADMIN_EMAIL env = Some email → ADMIN_PASSWORD env = Some pwd →
  zod_email email = true → email ≠ "" → (3 ≤ js_length pwd)%nat →
  (∀ u, u ∈ rows (users db) → User.email u ≠ email) →
  bcrypt_compareSync pwd (bcrypt_hashSync pwd e) = true →
  body req = Some (JObj o) →
  obj_get "email" o = Some (JStr email) →
  obj_get "password" o = Some (JStr pwd) →
  ∃ admin token,
    last (rows (users (startup env now e db))) = Some admin
    ∧ User.email admin = email ∧ User.role admin = "admin"
    ∧ signToken env now' admin = Some token
    ∧ app env PostAuthLogin req now' (startup env now e db)
      = (ok_json (JObj [("token", JStr token)]), startup env now e db).
Proof.
  intros Hk Hkne Hemail Hpwd Hvalid Hene Hlen Hfresh Hbcrypt Hbody He Hp.
  assert (pwd ≠ "") as Hpne by (intros ->; simpl in Hlen; lia).
  destruct (startup_creates_admin env now e db email pwd
              Hemail Hene Hpwd Hpne Hfresh) as [Hrows Hget].
  eexists _, _. split; [by rewrite Hrows, last_snoc|].
  split; [done|]. split; [done|].
  assert (signToken env now'
            (User.Build (next_rowid (users db)) email
               (bcrypt_hashSync pwd e) "admin" now)
          = Some (jwt_sign k
                    (JObj [("sub", JInt (next_rowid (users db)));
                           ("role", JStr "admin"); ("email", JStr email)])
                    now')) as Hsign.
  { unfold signToken. rewrite Hk. by destruct k. }
  split; [exact Hsign|].
  unfold app. cbn [under_admin handler]. unfold post_auth_login.
  rewrite Hbody, (login_parse_ok o email pwd) by done.
  rewrite Hget. unfold verifyPassword. cbn [User.password_hash].
  rewrite Hbcrypt. cbn [negb]. by rewrite Hsign.
Qed.

(** X16. The bootstrap and the login disagree on what a password is:
    [ensureAdminUser] creates the admin row for any non-empty e-mail and
    password, but a login whose e-mail fails the e-mail check or whose
    password is shorter than 3 characters is rejected with 400 before any
    lookup. An administrator configured with such credentials is created
    and can never log in. *)
Theorem short_credentials_lock_out env now e now' db email pwd req o :
  ADMIN_EMAIL env = Some email → email ≠ "" →
  ADMIN_PASSWORD env = Some pwd → pwd ≠ "" →
  (∀ u, u ∈ rows (users db) → User.email u ≠ email) →
  zod_email email = false ∨ (js_length pwd < 3)%nat →
  body req = Some (JObj o) →
  obj_get "email" o = Some (JStr email) →
  obj_get "password" o = Some (JStr pwd) →
  (∃ admin, last (rows (users (startup env now e db))) = Some admin
            ∧ User.email admin = email ∧ User.role admin = "admin")
  ∧ status (fst (app env PostAuthLogin req now' (startup env now e db)))
    = 400.
Proof.
  intros Hemail Hene Hpwd Hpne Hfresh Hbad Hbody He Hp.
  destruct (startup_creates_admin env now e db email pwd
              Hemail Hene Hpwd Hpne Hfresh) as [Hrows _].
  split.
  - eexists. by rewrite Hrows, last_snoc.
  - unfold app. cbn [under_admin handler]. unfold post_auth_login.
    rewrite Hbody.
    by destruct (login_parse_fails o email pwd He Hp Hbad) as [issues ->].
Qed.

(** *** From login to the gate, and the reachable stores *)

Lemma login_inv env req now db token :
  fst (app env PostAuthLogin req now db)
  = ok_json (JObj [("token", JStr token)]) →
  ∃ u, u ∈ rows (users db) ∧ signToken env now u = Some token.
Proof.
  unfold app. cbn [under_admin handler]. unfold post_auth_login.
  destruct (safeParse LoginSchema (body req)) as [errs|data] eqn:Hparse;
    [discriminate|].
  split_data. cbn beta iota.
  destruct (select_get _ _) as [u|] eqn:Hget; [|discriminate].
  apply select_get_some in Hget as [Hu _].
  destruct (negb _); [discriminate|].
  destruct (signToken env now u) as [t|] eqn:Hsign; [|discriminate].
  cbn [fst]. intros [= ->]. by exists u.
Qed.


Lemma handler_users env r req now db :
  users (snd (handler env r req now db)) = users db.
Proof.
  apply (handler_frame env r req now db TUsers).
  destruct r; try discriminate;
    match goal with e : entity |- _ => destruct e end; discriminate.
Qed.

Lemma app_users env r req now db :
  users (snd (app env r req now db)) = users db.
Proof.
  destruct (app_cases env r req now db)
    as [(res & ->) | (req' & _ & _ & ->)]; [done|].
  apply handler_users.
Qed.

Lemma startup_admin_rows env now e db :
  admin_rows env db → admin_rows env (startup env now e db).
Proof.
  unfold admin_rows, startup. intros Ha.
  rewrite <- (seedIfEmpty_users now db) in Ha.
  destruct (ensureAdminUser_cases env now e (seedIfEmpty now db))
    as [-> | (email & pwd & Hemail & _ & _ & _ & _ & ->)]; [done|].
  cbn [set_users users]. rewrite insert_eq. cbn [fst rows].
  apply Forall_app. split; [done|].
  apply Forall_singleton. by rewrite Hemail.
Qed.

Lemma startup_emails env now e db :
  NoDup (User.email <$> rows (users db)) →
  NoDup (User.email <$> rows (users (startup env now e db))).
Proof.
  unfold startup. intros Hnd.
  rewrite <- (seedIfEmpty_users now db) in Hnd.
  destruct (ensureAdminUser_cases env now e (seedIfEmpty now db))
    as [-> | (email & pwd & _ & _ & _ & _ & Hfresh & ->)]; [done|].
  cbn [set_users users]. rewrite insert_eq. cbn [fst rows].
  rewrite fmap_app. apply NoDup_app. split; [done|]. split.
  - intros a (u & -> & Hu)%list_elem_of_fmap.
    cbn [fmap list_fmap User.email].
    rewrite list_elem_of_singleton. by apply Hfresh.
  - apply NoDup_singleton.
Qed.

Lemma startup_keyed env now e db : keyed db → keyed (startup env now e db).
Proof.
  intros Hk. unfold startup.
  pose proof (seedIfEmpty_keyed now db Hk) as Hk'.
  destruct (ensureAdminUser_cases env now e (seedIfEmpty now db))
    as [-> | (email & pwd & _ & _ & _ & _ & _ & ->)]; [done|].
  destruct Hk' as (? & ? & ? & ? & ? & ? & ? & ?).
  unfold keyed, set_users.
  cbn [users services team testimonials gallery posts appointments contacts].
  refine (conj _ (conj _ (conj _ (conj _ (conj _ (conj _ (conj _ _)))))));
    try assumption.
  by apply insert_keyed.
Qed.

Lemma run_snoc env evs ev db :
  run env (evs ++ [ev]) db = step env (run env evs db) ev.
Proof. unfold run. by rewrite foldl_app. Qed.

(** X18. Whatever boots and requests the process has gone through since the
    empty store, ids are unique and within their counters, every stored
    price, rating, flag and status is in range, and there is at most one
    account: the configured administrator. *)
Theorem reachable_store_is_well_formed env evs :
  let db := run env evs empty_db in
  keyed db ∧ tidy db ∧ admin_rows env db
  ∧ (length (rows (users db)) ≤ 1)%nat.
Proof.
  cbn zeta.
  assert (keyed (run env evs empty_db) ∧ tidy (run env evs empty_db)
          ∧ admin_rows env (run env evs empty_db)
          ∧ NoDup (User.email <$> rows (users (run env evs empty_db))))
    as (Hk & Ht & Ha & Hnd).
  { induction evs as [|ev evs IH] using rev_ind.
    - split; [unfold keyed, keyed_table; compute_done|].
      split; [unfold tidy; compute_done|].
      split; [apply Forall_nil_2|apply NoDup_nil_2].
    - destruct IH as (Hk & Ht & Ha & Hnd). rewrite run_snoc.
      destruct ev as [now e|r req now]; cbn [step].
      + split; [by apply startup_keyed|]. split; [by apply startup_tidy|].
        split; [by apply startup_admin_rows|by apply startup_emails].
      + split.
        { destruct (app_cases env r req now (run env evs empty_db))
            as [(res & ->) | (req' & _ & _ & ->)]; [done|].
          by apply handler_keyed. }
        split.
        { destruct (app_cases env r req now (run env evs empty_db))
            as [(res & ->) | (req' & _ & _ & ->)]; [done|].
          by apply handler_tidy. }
        unfold admin_rows. by rewrite app_users. }
  split; [done|]. split; [done|]. split; [done|].
  unfold admin_rows in Ha.
  destruct (rows (users (run env evs empty_db))) as [|u [|v l]];
    cbn [length]; [lia..|].
  exfalso. apply Forall_cons in Ha as [[Hu _] Ha].
  apply Forall_cons in Ha as [[Hv _] _].
  cbn [fmap list_fmap] in Hnd. apply NoDup_cons in Hnd as [Hnot _].
  apply Hnot. apply elem_of_cons; left; congruence.
Qed.

End Store.

(** * Instances on the reference platform *)

Import Demo.

Lemma admin_request_authorized id b : authorized env 5 (admin_request id b).
Proof. exists "s3cret:admin", (JObj [("role", JStr "admin")]). by repeat split. Defined.

Lemma admin_gate_responses_witness :
  app env (GetAdmin Services) (request None "" None) 5 booted
    = (error_json 401 "missing_token", booted)
  ∧ app env (GetAdmin Services) (request (Some "Bearer forged") "" None) 5 booted
    = (error_json 401 "invalid_token", booted)
  ∧ app env (GetAdmin Services) (request (Some "Bearer s3cret:user") "" None)
      5 booted
    = (error_json 403 "forbidden", booted).
Proof.
  pose proof (λ req,
    admin_gate_responses env (GetAdmin Services) req 5 booted eq_refl) as Hg.
  split; [|split].
  - apply (Hg (request None "" None)). by left.
  - apply (Hg (request (Some "Bearer forged") "" None)) with "forged";
      [reflexivity | discriminate | reflexivity].
  - apply (Hg (request (Some "Bearer s3cret:user") "" None))
      with "s3cret:user" (JObj [("role", JStr "user")]);
      [reflexivity | discriminate | reflexivity | discriminate].
Defined.

Lemma missing_id_is_not_an_error_witness :
  app env (PutAdmin Services)
    (admin_request "99"
       (Some (JObj [("title", JStr "Corte"); ("price_cents", JInt 2500)])))
    5 booted
  = (ok_json (JObj [("updated", JInt 0)]), booted).
Proof.
  set (req := admin_request "99" _).
  assert (∀ i, i ∈ target_ids (PutAdmin Services) booted →
               sqlite_numeric (params_id req) ≠ Some i) as Hno.
  { intros i Hi. vm_compute in Hi. vm_compute.
    apply list_elem_of_In in Hi. simpl in Hi.
    intros [= <-]. intuition discriminate. }
  destruct (missing_id_is_not_an_error env (PutAdmin Services) req 5 booted
              eq_refl Hno) as (Hdb & _ & Hres).
  rewrite (surjective_pairing (app _ _ _ _ _)), Hdb, Hres;
    [reflexivity | apply admin_request_authorized | reflexivity].
Defined.


Lemma appointment_created_witness :
  Zod.safeParse AppointmentSchema (Some ana)
  = inr ("Ana Silva", ("11999999999", ("ana@x.com",
          (Some None, (Some None, (Some None, ()))))))
  ∧ ∃ row,
      app env PostAppointments (request None "" (Some ana)) 2000 booted
      = (Res 201 (Json (JObj [("id", JInt (Appointment.id row));
                              ("status", JStr "pending")])),
         set_appointments booted
           (Table (rows (appointments booted) ++ [row]) (Appointment.id row)))
      ∧ Appointment.status row = "pending"
      ∧ Appointment.created_at row = 2000.
Proof.
  assert (Zod.safeParse AppointmentSchema (Some ana)
          = inr ("Ana Silva", ("11999999999", ("ana@x.com",
                  (Some None, (Some None, (Some None, ())))))))
    as Haccepted by by vm_compute.
  split; [exact Haccepted|].
  destruct (appointment_created env (request None "" (Some ana)) 2000 booted
              _ Haccepted)
    as (o & name & phone & email & row & _ & _ & _ & _ & _ & _ & _
        & Happ & Hstatus & Hat & _).
  by exists row.
Defined.


Lemma status_update_frame_witness :
  let put s :=
    admin_request "1" (Some (JObj [("status", JStr s)])) in
  let confirmed :=
    snd (app env PutAdminAppointmentsStatus (put "confirmed") 5
           with_appointment) in
  fst (app env PutAdminAppointmentsStatus (put "confirmed") 5 with_appointment)
  = ok_json (JObj [("updated", JInt 1)])
  ∧ fst (app env PutAdminAppointmentsStatus (put "pending") 6 confirmed)
    = ok_json (JObj [("updated", JInt 1)])
  ∧ set_appointments confirmed (appointments with_appointment)
    = with_appointment.
Proof.
  intros put confirmed.
  assert (∀ s now, authorized env now (put s)) as Hauth.
  { intros s now. exists "s3cret:admin", (JObj [("role", JStr "admin")]).
    by repeat split. }
  destruct (status_update_frame env (put "confirmed") 5 with_appointment
              [("status", JStr "confirmed")] "confirmed"
              (Hauth _ _) eq_refl eq_refl)
    as (Hres & _ & _ & Hframe).
  { apply list_elem_of_In. simpl. tauto. }
  destruct (status_update_frame env (put "pending") 6 confirmed
              [("status", JStr "pending")] "pending"
              (Hauth _ _) eq_refl eq_refl)
    as (Hback & _).
  { apply list_elem_of_In. simpl. tauto. }
  split; [|split].
  - rewrite Hres. reflexivity.
  - rewrite Hback. reflexivity.
  - exact Hframe.
Defined.

Lemma validation_failure_is_local_witness :
  let bad :=
    request None ""
      (Some (JObj [("name", JStr "A"); ("phone", JStr "1");
                   ("email", JStr "x")])) in
  let res := fst (app env PostAppointments bad 5 booted) in
  let price :=
    admin_request "1"
      (Some (JObj [("title", JStr "Corte");
                   ("price_cents", JNum (Fin (-3 # 2)))])) in
  snd (app env PostAppointments bad 5 booted) = booted
  ∧ (∃ e, res = Res 400 (ValidationError e)
          ∧ Zod.formErrors e = []
          ∧ Zod.fieldErrors e !! "name" = Some [Zod.too_small]
          ∧ Zod.fieldErrors e !! "phone" = Some [Zod.too_small]
          ∧ Zod.fieldErrors e !! "email" = Some [Zod.invalid_email]
          ∧ Zod.fieldErrors e !! "notes" = None)
  ∧ (∃ e, fst (app env (PutAdmin Services) price 5 booted)
          = Res 400 (ValidationError e)
          ∧ Zod.fieldErrors e !! "price_cents"
            = Some [Zod.not_integer; Zod.too_small]).
Proof.
  intros bad res price.
  assert (rejected PostAppointments (body bad)) as Hrej by by vm_compute.
  assert (rejected (PutAdmin Services) (body price)) as Hrej' by by vm_compute.
  destruct (validation_failure_is_local env PostAppointments bad 5 booted Hrej)
    as (Hdb & Hres & Hform & Hfields).
  destruct (validation_failure_is_local env (PutAdmin Services) price 5 booted
              Hrej')
    as (_ & Hres' & _ & Hfields').
  split; [exact Hdb|split].
  - eexists. split; [apply Hres; by left|].
    split; [exact Hform|].
    split; [apply (Hfields "name")|].
    split; [apply (Hfields "phone")|].
    split; [apply (Hfields "email")|apply (Hfields "notes")].
  - eexists. split; [apply Hres'; right; apply admin_request_authorized|].
    apply (Hfields' "price_cents").
Defined.

Lemma omitted_flag_is_reset_witness :
  let service :=
    admin_request "2"
      (Some (JObj [("title", JStr "Barba Modelada");
                   ("price_cents", JInt 3000)])) in
  let post :=
    admin_request "1" (Some (JObj [("title", JStr "Novo corte")])) in
  flags_of Services with_hidden_service = [(1, 1); (2, 0); (3, 1)]
  ∧ flags_of Services
      (snd (app env (PutAdmin Services) service 5 with_hidden_service))
    = [(1, 1); (2, 1); (3, 1)]
  ∧ flags_of Posts with_post = [(1, 1)]
  ∧ flags_of Posts (snd (app env (PutAdmin Posts) post 5 with_post))
    = [(1, 0)].
Proof.
  intros service post.
  split; [reflexivity|split; [|split; [reflexivity|]]].
  - rewrite (omitted_flag_is_reset env Services service 5 with_hidden_service
               [("title", JStr "Barba Modelada"); ("price_cents", JInt 3000)]
               (admin_request_authorized _ _) eq_refl eq_refl eq_refl).
    reflexivity.
  - rewrite (omitted_flag_is_reset env Posts post 5 with_post
               [("title", JStr "Novo corte")]
               (admin_request_authorized _ _) eq_refl eq_refl eq_refl).
    reflexivity.
Defined.

Lemma startup_idempotent_witness :
  startup env 9999 3 booted = booted
  ∧ length (filter (λ u, User.email u = "admin@barbearia.com")
              (rows (users (startup env 9999 3 booted)))) = 1%nat
  ∧ Service.title <$> rows (services (startup env 9999 3 booted))
    = ["Corte Clássico"; "Barba Modelada"; "Corte + Barba"]
  ∧ Service.created_at <$> rows (services (startup env 9999 3 booted))
    = [1000; 1000; 1000].
Proof.
  destruct (startup_idempotent env 1000 7 9999 3 empty_db)
    as (Hidem & Hone & Hseed).
  split; [exact Hidem|split].
  - apply Hone; [reflexivity|discriminate|reflexivity|apply NoDup_nil_2].
  - pose proof (Hseed eq_refl) as Hrows. cbv zeta in Hrows.
    fold booted in Hrows. split; rewrite Hrows; reflexivity.
Defined.

Lemma public_lists_hide_witness :
  flags_of Services with_hidden_service = [(1, 1); (2, 0); (3, 1)]
  ∧ ∃ out,
      app env (GetPublic Services) (request None "" None) 1
        with_hidden_service
      = (ok_json (JArr out), with_hidden_service)
      ∧ json_id <$> out = [Some (JInt 1); Some (JInt 3)]
      ∧ Forall (λ v, json_keys v = ["id"; "title"; "description";
                                   "price_cents"]) out.
Proof.
  split; [reflexivity|].
  destruct (public_lists_hide env Services (request None "" None) 1
              with_hidden_service)
    as (out & Happ & Hkeys & _).
  exists out. split; [exact Happ|split].
  - vm_compute in Happ. by injection Happ as <-.
  - apply Forall_forall. intros v Hv. by apply Hkeys.
Defined.

Lemma collections_ordered_and_capped_witness :
  (∃ sel rest,
     app env (GetAdmin Services) (admin_request "" None) 5 booted
     = (ok_json (JArr (snd <$> sel)), booted)
     ∧ StronglySorted descending sel
     ∧ sel ++ rest ≡ₚ matching (AdminOf Services) booted
     ∧ rest = []
     ∧ Forall (λ v, json_keys v = listed_columns (AdminOf Services))
         (snd <$> sel))
  ∧ (∃ sel rest,
       app env (GetPublic Testimonials) (request None "" None) 5
         with_testimonials
       = (ok_json (JArr (snd <$> sel)), with_testimonials)
       ∧ StronglySorted descending sel
       ∧ sel ++ rest ≡ₚ matching (PublicOf Testimonials) with_testimonials
       ∧ (length sel
          = min 12 (length (matching (PublicOf Testimonials)
                              with_testimonials))
          ∧ ∀ a b, a ∈ sel → b ∈ rest → descending a b)
       ∧ Forall (λ v, json_keys v = listed_columns (PublicOf Testimonials))
           (snd <$> sel)).
Proof.
  split.
  - apply (collections_ordered_and_capped env (AdminOf Services)
             (admin_request "" None) 5 booted).
    intros _. apply admin_request_authorized.
  - apply (collections_ordered_and_capped env (PublicOf Testimonials)
             (request None "" None) 5 with_testimonials).
    discriminate.
Defined.

(** The public testimonials list comes newest first: with testimonials 1
    and 2 visible, no selection in ascending id order is what the endpoint
    answers. *)
Lemma public_testimonials_not_ascending :
  ¬ ∃ sel rest,
      fst (app env (GetPublic Testimonials) (request None "" None) 5
             with_testimonials)
      = ok_json (JArr (snd <$> sel))
      ∧ StronglySorted ascending sel
      ∧ sel ++ rest ≡ₚ matching (PublicOf Testimonials) with_testimonials.
Proof.
  intros (sel & rest & Hres & Hsorted & Hperm).
  vm_compute in Hres. injection Hres as Hres.
  destruct sel as [|[a x] [|[b y] [|]]]; try discriminate Hres.
  injection Hres as Hx Hy.
  assert (∀ p, p ∈ [(a, x); (b, y)] →
               p ∈ matching (PublicOf Testimonials) with_testimonials)
    as Hin.
  { intros p Hp. rewrite <- Hperm. apply elem_of_app. by left. }
  pose proof (Hin (a, x) ltac:(left)) as Ha.
  pose proof (Hin (b, y) ltac:(right; left)) as Hb.
  vm_compute in Ha, Hb. subst x y.
  apply list_elem_of_In in Ha, Hb. simpl in Ha, Hb.
  apply StronglySorted_cons in Hsorted as [Hab _].
  apply Forall_cons in Hab as [Hab _]. unfold ascending in Hab. simpl in Hab.
  destruct Ha as [[= <-]|[[= <-]|[]]]; destruct Hb as [[= <-]|[[= <-]|[]]].
  lia.
Defined.

(** ** Instances of the further properties *)

Lemma admin_request_authorized_at now id b :
  authorized env now (admin_request id b).
Proof. exists "s3cret:admin", (JObj [("role", JStr "admin")]). by repeat split. Defined.

Lemma booted_keyed : keyed booted.
Proof. unfold keyed, keyed_table. compute_done. Defined.

Lemma requests_keep_keys_witness :
  keyed booted
  ∧ keyed (snd (app env PostAppointments (request None "" (Some ana)) 2000
                  booted))
  ∧ seq_of TAppointments booted
    ≤ seq_of TAppointments
        (snd (app env PostAppointments (request None "" (Some ana)) 2000
                booted)).
Proof.
  split; [exact booted_keyed|].
  destruct (requests_keep_keys env PostAppointments
              (request None "" (Some ana)) 2000 booted booted_keyed)
    as [Hk Hseq].
  split; [exact Hk|apply (Hseq TAppointments)].
Defined.

Lemma startup_keeps_keys_witness :
  keyed empty_db
  ∧ NoDup (User.email <$> rows (users empty_db))
  ∧ keyed (startup env 1000 7 empty_db)
  ∧ NoDup (User.email <$> rows (users (startup env 1000 7 empty_db))).
Proof.
  assert (keyed empty_db) as Hk by (unfold keyed, keyed_table; compute_done).
  assert (NoDup (User.email <$> rows (users empty_db))) as Hnd
    by apply NoDup_nil_2.
  destruct (startup_keeps_keys env 1000 7 empty_db Hk Hnd) as (Hk' & Hnd' & _).
  split; [exact Hk|]. split; [exact Hnd|]. split; [exact Hk'|exact Hnd'].
Defined.

Lemma route_writes_one_table_witness :
  writes PostAppointments ≠ Some TUsers
  ∧ users (snd (app env PostAppointments (request None "" (Some ana)) 2000
                  booted))
    = users booted.
Proof.
  assert (writes PostAppointments ≠ Some TUsers) as Hw by discriminate.
  split; [exact Hw|].
  apply (route_writes_one_table env PostAppointments
           (request None "" (Some ana)) 2000 booted TUsers Hw).
Defined.

Lemma contact_created_witness :
  let msg := JObj [("name", JStr "Ana Silva"); ("email", JStr "ana@x.com");
                   ("message", JStr "Abrem aos domingos?")] in
  Zod.safeParse ContactSchema (Some msg)
  = inr ("Ana Silva", ("ana@x.com", ("Abrem aos domingos?", ())))
  ∧ ∃ row,
      app env PostContact (request None "" (Some msg)) 2000 booted
      = (Res 201 (Json (JObj [("id", JInt (Contact.id row))])),
         set_contacts booted
           (Table (rows (contacts booted) ++ [row]) (Contact.id row)))
      ∧ Contact.created_at row = 2000.
Proof.
  intros msg.
  assert (Zod.safeParse ContactSchema (Some msg)
          = inr ("Ana Silva", ("ana@x.com", ("Abrem aos domingos?", ()))))
    as Haccepted by by vm_compute.
  split; [exact Haccepted|].
  destruct (contact_created env (request None "" (Some msg)) 2000 booted
              _ Haccepted)
    as (o & name & email & message & row & _ & _ & _ & _ & Happ & Hrow & _).
  exists row. split; [exact Happ|]. by rewrite Hrow.
Defined.

Lemma appointment_optional_text_witness :
  let o := [("name", JStr "Ana Silva"); ("phone", JStr "11999999999");
            ("email", JStr "ana@x.com"); ("service", JStr "");
            ("notes", JStr "franja")] in
  Zod.safeParse AppointmentSchema (Some (JObj o))
  = inr ("Ana Silva", ("11999999999", ("ana@x.com",
          (Some (Some ""), (Some None, (Some (Some "franja"), ()))))))
  ∧ ∃ row,
      last (rows (appointments
                    (snd (app env PostAppointments
                            (request None "" (Some (JObj o))) 2000 booted))))
      = Some row
      ∧ Appointment.service row = None
      ∧ Appointment.datetime row = None
      ∧ Appointment.notes row = Some "franja".
Proof.
  intros o.
  assert (Zod.safeParse AppointmentSchema (Some (JObj o))
          = inr ("Ana Silva", ("11999999999", ("ana@x.com",
                  (Some (Some ""), (Some None, (Some (Some "franja"), ())))))))
    as Haccepted by by vm_compute.
  split; [exact Haccepted|].
  destruct (appointment_optional_text env (request None "" (Some (JObj o)))
              2000 booted _ o Haccepted eq_refl)
    as (row & Hlast & Hservice & Hdatetime & Hnotes).
  exists row. split; [exact Hlast|].
  split; [exact Hservice|]. split; [exact Hdatetime|exact Hnotes].
Defined.

Lemma create_appends_witness :
  let req := admin_request "" (Some (testimonial "Caio" 5)) in
  creates (PostAdmin Testimonials) = true
  ∧ writes (PostAdmin Testimonials) = Some TTestimonials
  ∧ keyed booted
  ∧ accepted (PostAdmin Testimonials) (body req)
  ∧ authorized env 5000 req
  ∧ status (fst (app env (PostAdmin Testimonials) req 5000 booted)) = 201
  ∧ ids_of TTestimonials
      (snd (app env (PostAdmin Testimonials) req 5000 booted))
    = [1]
  ∧ stamps_of TTestimonials
      (snd (app env (PostAdmin Testimonials) req 5000 booted))
    = [(1, 5000)].
Proof.
  intros req.
  assert (accepted (PostAdmin Testimonials) (body req)) as Hacc
    by by vm_compute.
  pose proof (admin_request_authorized_at 5000 ""
                (Some (testimonial "Caio" 5))) as Hauth.
  destruct (create_appends env (PostAdmin Testimonials) req 5000 booted
              TTestimonials eq_refl eq_refl booted_keyed Hacc
              (or_intror Hauth))
    as (Hstatus & _ & Hids & Hstamps & _).
  split; [reflexivity|]. split; [reflexivity|].
  split; [exact booted_keyed|]. split; [exact Hacc|]. split; [exact Hauth|].
  split; [exact Hstatus|]. split; [exact Hids|exact Hstamps].
Defined.

Lemma delete_removes_matching_witness :
  let req := admin_request "2" None in
  deletes (DeleteAdmin Services) = true
  ∧ authorized env 3000 req ∧ authorized env 3001 req
  ∧ fst (app env (DeleteAdmin Services) req 3000 booted)
    = ok_json (JObj [("deleted", JInt 1)])
  ∧ app env (DeleteAdmin Services) req 3001
      (snd (app env (DeleteAdmin Services) req 3000 booted))
    = (ok_json (JObj [("deleted", JInt 0)]),
       snd (app env (DeleteAdmin Services) req 3000 booted)).
Proof.
  intros req.
  pose proof (admin_request_authorized_at 3000 "2" None) as Hauth.
  pose proof (admin_request_authorized_at 3001 "2" None) as Hauth'.
  destruct (delete_removes_matching env (DeleteAdmin Services) req 3000 3001
              booted eq_refl Hauth Hauth')
    as (Hres & _ & Hagain).
  split; [reflexivity|]. split; [exact Hauth|]. split; [exact Hauth'|].
  split; [exact Hres|exact Hagain].
Defined.

Lemma undeclared_keys_are_ignored_witness :
  let o := [("name", JStr "Ana Silva"); ("phone", JStr "11999999999");
            ("email", JStr "ana@x.com")] in
  let o' := o ++ [("status", JStr "confirmed"); ("id", JInt 99)] in
  (∀ f, f ∈ schema_fields PostAppointments → obj_get f o = obj_get f o')
  ∧ app env PostAppointments (request None "" (Some (JObj o'))) 2000 booted
    = app env PostAppointments (request None "" (Some (JObj o))) 2000 booted.
Proof.
  intros o o'.
  assert (∀ f, f ∈ schema_fields PostAppointments
               → obj_get f o = obj_get f o') as Hsame.
  { intros f Hf. apply list_elem_of_In in Hf. simpl in Hf.
    repeat (destruct Hf as [<-|Hf]; [reflexivity|]). destruct Hf. }
  split; [exact Hsame|].
  apply (undeclared_keys_are_ignored env PostAppointments
           (request None "" (Some (JObj o))) 2000 booted o o' eq_refl Hsame).
Defined.

Lemma store_stays_in_range_witness :
  tidy booted
  ∧ tidy (snd (app env (PutAdmin Services)
                 (admin_request "2"
                    (Some (JObj [("title", JStr "Barba Modelada");
                                 ("price_cents", JInt 3000);
                                 ("active", JBool false)])))
                 3000 booted))
  ∧ tidy (startup env 9000 8 booted).
Proof.
  assert (tidy booted) as Htidy by (unfold tidy, is_flag; compute_done).
  split; [exact Htidy|].
  apply (store_stays_in_range env (PutAdmin Services) _ 3000 8 booted Htidy).
Defined.

Lemma put_is_idempotent_witness :
  let req :=
    admin_request "2"
      (Some (JObj [("title", JStr "Barba Modelada");
                   ("price_cents", JInt 3000); ("active", JBool false)])) in
  by_id (PutAdmin Services) = true ∧ deletes (PutAdmin Services) = false
  ∧ authorized env 3000 req ∧ authorized env 3001 req
  ∧ app env (PutAdmin Services) req 3001 with_hidden_service
    = app env (PutAdmin Services) req 3000 booted.
Proof.
  intros req.
  pose proof (admin_request_authorized_at 3000 "2" (body req)) as Hauth.
  pose proof (admin_request_authorized_at 3001 "2" (body req)) as Hauth'.
  split; [reflexivity|]. split; [reflexivity|].
  split; [exact Hauth|]. split; [exact Hauth'|].
  apply (put_is_idempotent env (PutAdmin Services) req 3000 3001 booted
           eq_refl eq_refl Hauth Hauth').
Defined.

Lemma ids_and_creation_times_are_fixed_witness :
  (1, 2000) ∈ stamps_of TAppointments with_appointment
  ∧ ((1, 2000) ∈ stamps_of TAppointments booted
     ∨ (snd (1, 2000) = 2000 ∧ seq_of TAppointments booted < fst (1, 2000))).
Proof.
  assert ((1, 2000) ∈ stamps_of TAppointments with_appointment) as Hin.
  { apply list_elem_of_In. vm_compute. tauto. }
  split; [exact Hin|].
  apply (ids_and_creation_times_are_fixed env PostAppointments
           (request None "" (Some ana)) 2000 booted TAppointments (1, 2000)
           Hin).
Defined.

Lemma created_row_is_listed_first_witness :
  let req := request None "" (Some ana) in
  let areq := admin_request "" None in
  creates PostAppointments = true ∧ keyed booted
  ∧ accepted PostAppointments (body req)
  ∧ under_admin PostAppointments = false
  ∧ authorized env 2001 areq
  ∧ ∃ v out,
      fst (app env GetAdminAppointments areq 2001 with_appointment)
      = ok_json (JArr (v :: out))
      ∧ fst (app env GetAdminAppointments areq 2001 booted)
        = ok_json (JArr out)
      ∧ json_id v = Some (JInt 1).
Proof.
  intros req areq.
  assert (accepted PostAppointments (body req)) as Hacc by by vm_compute.
  pose proof (admin_request_authorized_at 2001 "" None) as Hauth.
  destruct (created_row_is_listed_first env PostAppointments req areq
              2000 2001 booted eq_refl booted_keyed Hacc
              (or_introl eq_refl) Hauth)
    as (v & out & Hnew & Hold & Hid).
  split; [reflexivity|]. split; [exact booted_keyed|].
  split; [exact Hacc|]. split; [reflexivity|]. split; [exact Hauth|].
  exists v, out. split; [exact Hnew|]. split; [exact Hold|].
  rewrite Hid. by vm_compute.
Defined.

Lemma bootstrapped_admin_can_log_in_witness :
  let o := [("email", JStr "admin@barbearia.com");
            ("password", JStr "admin123")] in
  zod_email "admin@barbearia.com" = true
  ∧ (3 ≤ js_length "admin123")%nat
  ∧ bcrypt_compareSync "admin123" (bcrypt_hashSync "admin123" 7) = true
  ∧ ∃ token,
      app env PostAuthLogin (request None "" (Some (JObj o))) 2000 booted
      = (ok_json (JObj [("token", JStr token)]), booted).
Proof.
  intros o.
  assert (zod_email "admin@barbearia.com" = true) as Hmail by by vm_compute.
  assert (3 ≤ js_length "admin123")%nat as Hlen by (vm_compute; lia).
  assert (bcrypt_compareSync "admin123" (bcrypt_hashSync "admin123" 7) = true)
    as Hcmp by by vm_compute.
  assert (∀ u, u ∈ rows (users empty_db)
               → User.email u ≠ "admin@barbearia.com") as Hfresh.
  { intros u Hu. by apply elem_of_nil in Hu. }
  destruct (bootstrapped_admin_can_log_in env 1000 7 2000 empty_db
              "admin@barbearia.com" "admin123" "s3cret"
              (request None "" (Some (JObj o))) o
              eq_refl ltac:(discriminate) eq_refl eq_refl Hmail
              ltac:(discriminate) Hlen Hfresh Hcmp eq_refl eq_refl eq_refl)
    as (admin & token & _ & _ & _ & _ & Hlogin).
  split; [exact Hmail|]. split; [exact Hlen|]. split; [exact Hcmp|].
  by exists token.
Defined.

Lemma short_credentials_lock_out_witness :
  let env' := {| JWT_SECRET := Some "s3cret";
                 ADMIN_EMAIL := Some "admin@barbearia.com";
                 ADMIN_PASSWORD := Some "ab" |} in
  let o := [("email", JStr "admin@barbearia.com"); ("password", JStr "ab")] in
  (js_length "ab" < 3)%nat
  ∧ (∃ admin, last (rows (users (startup env' 1000 7 empty_db))) = Some admin
              ∧ User.email admin = "admin@barbearia.com"
              ∧ User.role admin = "admin")
  ∧ status (fst (app env' PostAuthLogin (request None "" (Some (JObj o))) 2000
                   (startup env' 1000 7 empty_db)))
    = 400.
Proof.
  intros env' o.
  assert (js_length "ab" < 3)%nat as Hlen by (vm_compute; lia).
  assert (∀ u, u ∈ rows (users empty_db)
               → User.email u ≠ "admin@barbearia.com") as Hfresh.
  { intros u Hu. by apply elem_of_nil in Hu. }
  split; [exact Hlen|].
  apply (short_credentials_lock_out env' 1000 7 2000 empty_db
           "admin@barbearia.com" "ab" (request None "" (Some (JObj o))) o
           eq_refl ltac:(discriminate) eq_refl ltac:(discriminate) Hfresh
           (or_intror Hlen) eq_refl eq_refl eq_refl).
Defined.

